(** * Verification of the bulk-memory polyfill pass and the account-hash tool

    The development embeds the two Python programs of [contracts/]:

    - [polyfill_wat.py]: a text-to-text pass over a WebAssembly text module
      that detects [memory.copy] / [memory.fill], injects hand-written
      [$memcpy] / [$memset] functions before the last closing parenthesis
      and rewrites the instructions into calls;
    - [get_account_hash.py]: a one-shot tool deriving an account hash from
      a tagged public key.

    Python text is a sequence of Unicode code points; it is modelled as a
    list of code points ([N]).  Files, standard output and process exit
    are modelled by an explicit world with a state-and-exception monad.
    The two injected WebAssembly functions are embedded as functions over
    a byte memory with 32-bit wrap-around arithmetic and fuel for loops. *)

From Stdlib Require Import ZArith NArith List Ascii String Lia DecimalString.
From Stdlib Require Strings.Byte.
From stdpp Require Import base option list gmap strings.

Local Open Scope Z_scope.

(* ===================================================================== *)
(** * Python text primitives *)
(* ===================================================================== *)

Module Py.

(** A Python [str]: a sequence of Unicode code points. *)
Abbreviation str := (list N).

(** The text of a source literal (all literals of the programs are ASCII). *)
Definition py (s : string) : str :=
  map N_of_ascii (list_ascii_of_string s).

(** [s.startswith(p)] *)
Fixpoint startswith (p s : str) : bool :=
  match p, s with
  | [], _ => true
  | _ :: _, [] => false
  | a :: p', b :: s' => (a =? b)%N && startswith p' s'
  end.

(** [sub in s] *)
Fixpoint contains (sub s : str) : bool :=
  startswith sub s ||
  match s with
  | [] => false
  | _ :: s' => contains sub s'
  end.

(** [s.rfind(sub)]: the highest index at which [sub] starts, or [-1]. *)
Fixpoint rfind (sub s : str) : Z :=
  match s with
  | [] => if startswith sub [] then 0 else -1
  | _ :: s' =>
      let r := rfind sub s' in
      if 0 <=? r then r + 1
      else if startswith sub s then 0 else -1
  end.

(** Slice bounds: a negative index counts from the end, and every index is
    clipped to the length. *)
Definition clip (s : str) (i : Z) : nat :=
  let n := Z.of_nat (length s) in
  Z.to_nat (if i <? 0 then Z.max 0 (n + i) else Z.min i n).

(** [s[:i]] *)
Definition slice_to (s : str) (i : Z) : str := take (clip s i) s.

(** [s[i:]] *)
Definition slice_from (s : str) (i : Z) : str := drop (clip s i) s.

(** [str(b)] for a bool, as an f-string prints it. *)
Definition str_of_bool (b : bool) : str :=
  if b then py "True" else py "False".

(** [str(n)] for a non-negative int. *)
Definition str_of_nat (n : nat) : str :=
  py (NilEmpty.string_of_uint (Nat.to_uint n)).

(** ** The fragment of [re] used by the pass *)

(** The class [\s] on [str] patterns: the Unicode whitespace code points. *)
Definition is_space (c : N) : bool :=
  ((9 <=? c) && (c <=? 13) || (28 <=? c) && (c <=? 32)
   || (c =? 133) || (c =? 160) || (c =? 5760)
   || (8192 <=? c) && (c <=? 8202)
   || (c =? 8232) || (c =? 8233) || (c =? 8239) || (c =? 8287)
   || (c =? 12288))%N.

(** Patterns: a run of literal characters, [\s+], concatenation and the
    greedy optional group [( ... )?]. *)
Inductive regex : Type :=
| Lits (w : str)
| SpacePlus
| Cat (r1 r2 : regex)
| Opt (r : regex).

(** [w] stripped from the front of [s]. *)
Fixpoint strip (w s : str) : option str :=
  match w, s with
  | [], _ => Some s
  | _ :: _, [] => None
  | a :: w', b :: s' => if (a =? b)%N then strip w' s' else None
  end.

(** Greedy [\s+] with backtracking: the longest run is tried first, then
    shorter ones, each time followed by the continuation [k]. *)
Fixpoint space_plus (s : str) (k : str -> option str) : option str :=
  match s with
  | [] => None
  | c :: s' =>
      if is_space c then
        match space_plus s' k with
        | Some r => Some r
        | None => k s'
        end
      else None
  end.

(** Backtracking matcher anchored at the head of [s]; the result is the
    text left after the match. *)
Fixpoint rmatch (r : regex) (s : str) (k : str -> option str) : option str :=
  match r with
  | Lits w => match strip w s with Some s' => k s' | None => None end
  | SpacePlus => space_plus s k
  | Cat r1 r2 => rmatch r1 s (fun s' => rmatch r2 s' k)
  | Opt r1 =>
      match rmatch r1 s k with
      | Some x => Some x
      | None => k s
      end
  end.

(** The scanning loop of [re.sub]: at each position the pattern is tried;
    a match is replaced and scanning resumes after it, otherwise the
    character is copied.  The patterns of the pass never match the empty
    string, so the rules of [re] for empty matches are not modelled. *)
Fixpoint sub_loop (fuel : nat) (pat : regex) (repl s : str) : str :=
  match fuel with
  | O => s
  | S fuel' =>
      match s with
      | [] => []
      | c :: s' =>
          match rmatch pat s Some with
          | Some rest => repl ++ sub_loop fuel' pat repl rest
          | None => c :: sub_loop fuel' pat repl s'
          end
      end
  end.

(** [re.sub(pat, repl, s)] for a literal replacement text. *)
Definition re_sub (pat : regex) (repl s : str) : str :=
  sub_loop (length s) pat repl s.

(** ** Auxiliary notions used to reason about matching *)

(** The text left after a maximal run of whitespace. *)
Fixpoint drop_ws (s : str) : str :=
  match s with
  | [] => []
  | c :: s' => if is_space c then drop_ws s' else s
  end.

(** What [\s+0] leaves: at least one whitespace character, the whole run
    of whitespace, then the digit [0]. *)
Definition operand (s : str) : option str :=
  match s with
  | [] => None
  | c :: s' =>
      if is_space c then
        match drop_ws s' with
        | z :: r => if (z =? 48)%N then Some r else None
        | [] => None
        end
      else None
  end.

(** A run of whitespace characters. *)
Definition spaces (ws : str) : Prop := Forall (fun c => is_space c = true) ws.

(** A text that starts, after optional whitespace, with a character that
    is neither whitespace nor the digit [0]. *)
Definition barrier (b : str) : Prop :=
  exists ws p b', b = ws ++ p :: b' /\ spaces ws
                  /\ is_space p = false /\ p <> 48%N.

(** The non-empty suffixes of a text, longest first. *)
Fixpoint tails (s : str) : list str :=
  match s with
  | [] => []
  | _ :: s' => s :: tails s'
  end.

(** One of the two texts is a prefix of the other. *)
Definition compat (a b : str) : bool := startswith a b || startswith b a.

(** No non-empty suffix of [a] can be continued into, or completed by,
    the text [b]. *)
Definition clash (a b : str) : bool :=
  forallb (fun t => negb (compat t b)) (tails a).

End Py.

(* ===================================================================== *)
(** * Files, standard output and exceptions *)
(* ===================================================================== *)

Module Sys.
Import Py.

(** What a run does to the outside: lines printed to standard output,
    files opened for reading, files written. *)
Inductive event : Type :=
| EvPrint (line : str)
| EvRead (path : str)
| EvWrite (path : str) (data : str).

(** The file system holds decoded text; codecs and newline translation of
    text-mode files are outside the model, and opening a file for writing
    always succeeds. *)
Record world : Type := World {
  files : gmap str str;
  trace : list event
}.

(** How a computation stops early. *)
Inductive abort : Type :=
| PyException (msg : str)
| FileNotFoundError (path : str)
| SystemExit (status : Z).

(** State over the world, with exceptions. *)
Definition M (A : Type) : Type := world -> (A + abort) * world.

Definition ret {A} (a : A) : M A := fun w => (inl a, w).

Definition bind {A B} (m : M A) (f : A -> M B) : M B :=
  fun w =>
    match m w with
    | (inl a, w') => f a w'
    | (inr e, w') => (inr e, w')
    end.

Definition raise {A} (e : abort) : M A := fun w => (inr e, w).

#[global] Instance M_ret : MRet M := @ret.
#[global] Instance M_bind : MBind M := fun A B f m => bind m f.

Definition emit (e : event) : M unit :=
  fun w => (inl tt, World (files w) (trace w ++ [e])).

(** [print(line)] *)
Definition print (line : str) : M unit := emit (EvPrint line).

(** [sys.exit(status)] *)
Definition sys_exit {A} (status : Z) : M A := raise (SystemExit status).

(** [with open(path, 'r') as f: f.read()] *)
Definition read_file (path : str) : M str :=
  fun w =>
    match files w !! path with
    | Some data => (inl data, World (files w) (trace w ++ [EvRead path]))
    | None => (inr (FileNotFoundError path), w)
    end.

(** [with open(path, 'w') as f: f.write(data)] *)
Definition write_file (path : str) (data : str) : M unit :=
  fun w =>
    (inl tt,
     World (<[path := data]> (files w)) (trace w ++ [EvWrite path data])).

(** The exit status of the process when the script ends with the given
    outcome: an uncaught exception ends the interpreter with status 1. *)
Definition exit_status {A} (r : A + abort) : Z :=
  match r with
  | inl _ => 0
  | inr (SystemExit status) => status
  | inr _ => 1
  end.

End Sys.

(* ===================================================================== *)
(** * polyfill_wat.py *)
(* ===================================================================== *)

Module Polyfill.
Import Py Sys.

(** The two mnemonics looked for (lines 9-10). *)
Definition MEMORY_COPY : str := Eval vm_compute in py "memory.copy".
Definition MEMORY_FILL : str := Eval vm_compute in py "memory.fill".

(** The closing delimiter looked for by [rfind] (line 81). *)
Definition RPAREN : str := Eval vm_compute in py ")".

(** The call texts written by the rewriting step (lines 96 and 100). *)
Definition CALL_MEMCPY : str := Eval vm_compute in py "call $memcpy".
Definition CALL_MEMSET : str := Eval vm_compute in py "call $memset".

(** The literal [memcpy_func] (lines 23-60), character for character. *)
Definition memcpy_func_text : string := "
  (func $memcpy (param $dest i32) (param $src i32) (param $len i32)
    (local $i i32)
    
    (if (i32.gt_u (local.get $dest) (local.get $src))
      (then
        ;; Backward copy (dest > src)
        (local.set $i (local.get $len))
        (block $done_back
          (loop $loop_back
            (br_if $done_back (i32.eqz (local.get $i)))
            (local.set $i (i32.sub (local.get $i) (i32.const 1)))
            (i32.store8
              (i32.add (local.get $dest) (local.get $i))
              (i32.load8_u (i32.add (local.get $src) (local.get $i)))
            )
            (br $loop_back)
          )
        )
      )
      (else
        ;; Forward copy (dest <= src)
        (local.set $i (i32.const 0))
        (block $done_fwd
          (loop $loop_fwd
            (br_if $done_fwd (i32.ge_u (local.get $i) (local.get $len)))
            (i32.store8
              (i32.add (local.get $dest) (local.get $i))
              (i32.load8_u (i32.add (local.get $src) (local.get $i)))
            )
            (local.set $i (i32.add (local.get $i) (i32.const 1)))
            (br $loop_fwd)
          )
        )
      )
    )
  )
".

(** The literal [memset_func] (lines 62-78), character for character. *)
Definition memset_func_text : string := "
  (func $memset (param $dest i32) (param $val i32) (param $len i32)
    (local $i i32)
    (local.set $i (i32.const 0))
    (block $done
      (loop $loop
        (br_if $done (i32.ge_u (local.get $i) (local.get $len)))
        (i32.store8
          (i32.add (local.get $dest) (local.get $i))
          (local.get $val)
        )
        (local.set $i (i32.add (local.get $i) (i32.const 1)))
        (br $loop)
      )
    )
  )
".

Definition memcpy_func : str := Eval vm_compute in py memcpy_func_text.
Definition memset_func : str := Eval vm_compute in py memset_func_text.

(** [r'memory\.copy(\s+0\s+0)?'] (line 96) *)
Definition COPY_RE : regex :=
  Cat (Lits MEMORY_COPY)
      (Opt (Cat SpacePlus (Cat (Lits [48%N]) (Cat SpacePlus (Lits [48%N]))))).

(** [r'memory\.fill(\s+0)?'] (line 100) *)
Definition FILL_RE : regex :=
  Cat (Lits MEMORY_FILL) (Opt (Cat SpacePlus (Lits [48%N]))).

(** The two substitutions of lines 96 and 100. *)
Abbreviation sub_copy := (re_sub COPY_RE CALL_MEMCPY).
Abbreviation sub_fill := (re_sub FILL_RE CALL_MEMSET).

(** What the optional group of [COPY_RE] consumes of the text that follows
    the mnemonic: two operands [0], or nothing. *)
Definition skip_copy (r : str) : str :=
  match operand r with
  | Some r1 =>
      match operand r1 with
      | Some r2 => r2
      | None => r
      end
  | None => r
  end.

(** What the optional group of [FILL_RE] consumes: one operand [0], or
    nothing. *)
Definition skip_fill (r : str) : str :=
  match operand r with
  | Some r1 => r1
  | None => r
  end.

(** Step 1 (lines 9-10): which instructions occur in the text. *)
Definition detect (content : str) : bool * bool :=
  (contains MEMORY_COPY content, contains MEMORY_FILL content).

(** Lines 85-89: the text to inject. *)
Definition injected_code (has_copy has_fill : bool) : str :=
  let injected_code := [] in
  let injected_code :=
    if has_copy then injected_code ++ memcpy_func else injected_code in
  let injected_code :=
    if has_fill then injected_code ++ memset_func else injected_code in
  injected_code.

(** Step 2 (lines 80-91): splice the functions before the last [")"]. *)
Definition inject (has_copy has_fill : bool) (content : str) : str + abort :=
  let last_paren_idx := rfind RPAREN content in
  if last_paren_idx =? -1 then inr (PyException (py "Invalid WAT file"))
  else
    inl (slice_to content last_paren_idx
         ++ injected_code has_copy has_fill
         ++ slice_from content last_paren_idx).

(** Step 3 (lines 93-100): replace the instructions by calls. *)
Definition rewrite_calls (has_copy has_fill : bool) (new_content : str) : str :=
  let new_content :=
    if has_copy then re_sub COPY_RE CALL_MEMCPY new_content
    else new_content in
  let new_content :=
    if has_fill then re_sub FILL_RE CALL_MEMSET new_content
    else new_content in
  new_content.

(** [polyfill_wat(wat_path, output_path)] (lines 4-103). *)
Definition polyfill_wat (wat_path output_path : str) : M unit :=
  content ← read_file wat_path;
  let '(has_copy, has_fill) := detect content in
  if negb has_copy && negb has_fill then
    print (py "No bulk memory operations found.") ;;
    write_file output_path content
  else
    print (py "Found bulk memory ops: Copy=" ++ str_of_bool has_copy
           ++ py ", Fill=" ++ str_of_bool has_fill) ;;
    match inject has_copy has_fill content with
    | inr e => raise e
    | inl new_content =>
        write_file output_path (rewrite_calls has_copy has_fill new_content)
    end.

(** The script body (lines 105-110); [argv] is [sys.argv]. *)
Definition main (argv : list str) : M unit :=
  if negb (length argv =? 3)%nat then
    print (py "Usage: python3 polyfill_wat.py <input.wat> <output.wat>") ;;
    sys_exit 1
  else
    polyfill_wat (nth 1 argv []) (nth 2 argv []).

(** The nesting depth reached at the end of [s] when it is entered at
    depth [d], counting ["("] and [")"] as they stand in the text;
    [None] when a [")"] has nothing to close. *)
Fixpoint nesting (d : nat) (s : str) : option nat :=
  match s with
  | [] => Some d
  | c :: s' =>
      if (c =? 40)%N then nesting (S d) s'
      else if (c =? 41)%N then
        match d with
        | O => None
        | S d' => nesting d' s'
        end
      else nesting d s'
  end.

End Polyfill.

(* ===================================================================== *)
(** * The injected WebAssembly functions *)
(* ===================================================================== *)

Module Wasm.
Import Strings.Byte.

(** [i32] values are integers in [0, 2^32); arithmetic wraps around. *)
Definition wrap32 (z : Z) : Z := z mod 2 ^ 32.

Definition i32_add (a b : Z) : Z := wrap32 (a + b).
Definition i32_sub (a b : Z) : Z := wrap32 (a - b).
Definition i32_eqz (a : Z) : bool := a =? 0.
Definition i32_gt_u (a b : Z) : bool := b <? a.
Definition i32_ge_u (a b : Z) : bool := b <=? a.

(** The low eight bits of an [i32], as stored by [i32.store8]. *)
Definition wrap8 (v : Z) : byte :=
  match of_N (Z.to_N (v mod 256)) with
  | Some b => b
  | None => x00
  end.

(** The linear memory, and the stores performed so far (oldest first);
    the list of stores is bookkeeping for the statements about the order
    of the copy and has no influence on execution. *)
Record machine : Type := Machine {
  memory : list byte;
  stores : list (Z * byte)
}.

Inductive result (A : Type) : Type :=
| Done (a : A)
| Trap
| OutOfFuel.
Arguments Done {A} a.
Arguments Trap {A}.
Arguments OutOfFuel {A}.

#[global] Instance result_ret : MRet result := @Done.
#[global] Instance result_bind : MBind result := fun A B f r =>
  match r with
  | Done a => f a
  | Trap => Trap
  | OutOfFuel => OutOfFuel
  end.

(** [i32.load8_u]: traps outside the memory. *)
Definition load8_u (m : machine) (addr : Z) : result Z :=
  match memory m !! Z.to_nat addr with
  | Some b => Done (Z.of_N (to_N b))
  | None => Trap
  end.

(** [i32.store8]: traps outside the memory. *)
Definition store8 (m : machine) (addr v : Z) : result machine :=
  if addr <? Z.of_nat (length (memory m)) then
    Done (Machine (<[Z.to_nat addr := wrap8 v]> (memory m))
                  (stores m ++ [(addr, wrap8 v)]))
  else Trap.

(** [$loop_back] of [$memcpy], entered with the local [$i] (lines 31-41). *)
Fixpoint loop_back (fuel : nat) (dest src i : Z) (m : machine)
  : result machine :=
  match fuel with
  | O => OutOfFuel
  | S fuel' =>
      if i32_eqz i then Done m
      else
        let i := i32_sub i 1 in
        v ← load8_u m (i32_add src i);
        m ← store8 m (i32_add dest i) v;
        loop_back fuel' dest src i m
  end.

(** [$loop_fwd] of [$memcpy] (lines 46-56). *)
Fixpoint loop_fwd (fuel : nat) (dest src len i : Z) (m : machine)
  : result machine :=
  match fuel with
  | O => OutOfFuel
  | S fuel' =>
      if i32_ge_u i len then Done m
      else
        v ← load8_u m (i32_add src i);
        m ← store8 m (i32_add dest i) v;
        let i := i32_add i 1 in
        loop_fwd fuel' dest src len i m
  end.

(** [$memcpy] (lines 24-59). *)
Definition memcpy (fuel : nat) (dest src len : Z) (m : machine)
  : result machine :=
  if i32_gt_u dest src then
    let i := len in
    loop_back fuel dest src i m
  else
    let i := 0 in
    loop_fwd fuel dest src len i m.

(** [$loop] of [$memset] (lines 66-76). *)
Fixpoint loop_set (fuel : nat) (dest val len i : Z) (m : machine)
  : result machine :=
  match fuel with
  | O => OutOfFuel
  | S fuel' =>
      if i32_ge_u i len then Done m
      else
        m ← store8 m (i32_add dest i) val;
        let i := i32_add i 1 in
        loop_set fuel' dest val len i m
  end.

(** [$memset] (lines 63-77). *)
Definition memset (fuel : nat) (dest val len : Z) (m : machine)
  : result machine :=
  let i := 0 in
  loop_set fuel dest val len i m.

(** The reference move of the specification: the [len] bytes found at
    [src] before the call end up at [dest], everything else is kept. *)
Definition memmove (mem : list byte) (dest src len : nat) : list byte :=
  take dest mem ++ take len (drop src mem) ++ drop (dest + len) mem.

(** The reference fill of the specification. *)
Definition fill (mem : list byte) (dest : nat) (b : byte) (len : nat)
  : list byte :=
  take dest mem ++ replicate len b ++ drop (dest + len) mem.

(** The stores of a copy that visits the indices [idxs] in that order:
    index [j] writes at [dest + j] the byte found at [src + j] in [mem]. *)
Definition copy_log (mem : list byte) (dest src : nat) (idxs : list nat)
  : list (Z * byte) :=
  map (fun j => (Z.of_nat (dest + j), nth (src + j) mem x00)) idxs.

(** Pointwise reading of a move: [mem'] is [mem] except that the [n] cells
    from [dest] hold what [mem] held from [src]. *)
Definition moved (mem : list byte) (dest src n : nat) (mem' : list byte) : Prop :=
  length mem' = length mem /\
  forall k, mem' !! k =
    if decide (dest <= k < dest + n)%nat then mem !! (k - dest + src)%nat
    else mem !! k.

(** The stores of a fill that visits the indices [idxs] in that order. *)
Definition fill_log (dest : nat) (b : byte) (idxs : list nat)
  : list (Z * byte) :=
  map (fun j => (Z.of_nat (dest + j), b)) idxs.

(** At index [j] of a copy, the source or the destination address,
    computed with wrap-around, is not an address of the memory. *)
Definition outside (m : machine) (dest src : Z) (j : Z) : Prop :=
  Z.of_nat (length (memory m)) <= i32_add src j
  \/ Z.of_nat (length (memory m)) <= i32_add dest j.

End Wasm.

(* ===================================================================== *)
(** * BLAKE2b, as provided by [hashlib.blake2b] *)
(* ===================================================================== *)

Module Blake2b.
Import Strings.Byte.
Local Open Scope N_scope.

(** Unkeyed, sequential BLAKE2b (RFC 7693) on 64-bit words. *)
Definition add64 (a b : N) : N := (a + b) mod 2 ^ 64.

Definition rotr64 (x n : N) : N :=
  N.lor (N.shiftr x n) (N.shiftl x (64 - n) mod 2 ^ 64).

Definition IV : list N :=
  [ 0x6a09e667f3bcc908; 0xbb67ae8584caa73b;
    0x3c6ef372fe94f82b; 0xa54ff53a5f1d36f1;
    0x510e527fade682d1; 0x9b05688c2b3e6c1f;
    0x1f83d9abfb41bd6b; 0x5be0cd19137e2179 ].

Definition SIGMA : list (list nat) :=
  [ [ 0; 1; 2; 3; 4; 5; 6; 7; 8; 9; 10; 11; 12; 13; 14; 15 ];
    [ 14; 10; 4; 8; 9; 15; 13; 6; 1; 12; 0; 2; 11; 7; 5; 3 ];
    [ 11; 8; 12; 0; 5; 2; 15; 13; 10; 14; 3; 6; 7; 1; 9; 4 ];
    [ 7; 9; 3; 1; 13; 12; 11; 14; 2; 6; 5; 10; 4; 0; 15; 8 ];
    [ 9; 0; 5; 7; 2; 4; 10; 15; 14; 1; 11; 12; 6; 8; 3; 13 ];
    [ 2; 12; 6; 10; 0; 11; 8; 3; 4; 13; 7; 5; 15; 14; 1; 9 ];
    [ 12; 5; 1; 15; 14; 13; 4; 10; 0; 7; 6; 3; 9; 2; 8; 11 ];
    [ 13; 11; 7; 14; 12; 1; 3; 9; 5; 0; 15; 4; 8; 6; 2; 10 ];
    [ 6; 15; 14; 9; 11; 3; 0; 8; 12; 2; 13; 7; 1; 4; 10; 5 ];
    [ 10; 2; 8; 4; 7; 6; 1; 5; 15; 11; 9; 14; 3; 12; 13; 0 ] ]%nat.

Definition get (v : list N) (i : nat) : N := nth i v 0.

(** The mixing function G. *)
Definition G (v : list N) (a b c d : nat) (x y : N) : list N :=
  let v := <[a := add64 (add64 (get v a) (get v b)) x]> v in
  let v := <[d := rotr64 (N.lxor (get v d) (get v a)) 32]> v in
  let v := <[c := add64 (get v c) (get v d)]> v in
  let v := <[b := rotr64 (N.lxor (get v b) (get v c)) 24]> v in
  let v := <[a := add64 (add64 (get v a) (get v b)) y]> v in
  let v := <[d := rotr64 (N.lxor (get v d) (get v a)) 16]> v in
  let v := <[c := add64 (get v c) (get v d)]> v in
  let v := <[b := rotr64 (N.lxor (get v b) (get v c)) 63]> v in
  v.

Definition mix_round (m v : list N) (s : list nat) : list N :=
  let w (k : nat) := get m (nth k s 0%nat) in
  let v := G v 0 4 8 12 (w 0%nat) (w 1%nat) in
  let v := G v 1 5 9 13 (w 2%nat) (w 3%nat) in
  let v := G v 2 6 10 14 (w 4%nat) (w 5%nat) in
  let v := G v 3 7 11 15 (w 6%nat) (w 7%nat) in
  let v := G v 0 5 10 15 (w 8%nat) (w 9%nat) in
  let v := G v 1 6 11 12 (w 10%nat) (w 11%nat) in
  let v := G v 2 7 8 13 (w 12%nat) (w 13%nat) in
  let v := G v 3 4 9 14 (w 14%nat) (w 15%nat) in
  v.

(** The compression function F: state [h], message block [m] (16 words),
    byte counter [t], final-block flag. *)
Definition F (h m : list N) (t : N) (final : bool) : list N :=
  let v := h ++ IV in
  let v := <[12%nat := N.lxor (get v 12) (t mod 2 ^ 64)]> v in
  let v := <[13%nat := N.lxor (get v 13) (t / 2 ^ 64)]> v in
  let v := if final then <[14%nat := N.lxor (get v 14) (2 ^ 64 - 1)]> v
           else v in
  let v := fold_left
             (fun v r => mix_round m v (nth (r mod 10)%nat SIGMA []))
             (seq 0 12) v in
  map (fun i => N.lxor (N.lxor (get h i) (get v i)) (get v (i + 8)%nat))
      (seq 0 8).

(** Little-endian value of a run of bytes. *)
Fixpoint le_word (bs : list byte) : N :=
  match bs with
  | [] => 0
  | b :: bs' => to_N b + 256 * le_word bs'
  end.

(** The 16 words of a block; a short block is padded with zeros. *)
Definition block_words (blk : list byte) : list N :=
  map (fun i => le_word (take 8 (drop (8 * i) blk))) (seq 0 16).

(** All blocks but the last are compressed with the flag off; the last
    one, possibly empty or short, with the flag on. *)
Fixpoint compress (fuel : nat) (h : list N) (t : N) (data : list byte)
  : list N :=
  match fuel with
  | O => F h (block_words data) (t + N.of_nat (length data)) true
  | S fuel' =>
      if (length data <=? 128)%nat then
        F h (block_words data) (t + N.of_nat (length data)) true
      else
        compress fuel' (F h (block_words (take 128 data)) (t + 128) false)
                 (t + 128) (drop 128 data)
  end.

(** The [n] low bytes of a word, little-endian. *)
Fixpoint le_bytes (n : nat) (x : N) : list byte :=
  match n with
  | O => []
  | S n' =>
      match of_N (x mod 256) with
      | Some b => b :: le_bytes n' (x / 256)
      | None => []
      end
  end.

(** [hashlib.blake2b(data, digest_size=digest_size).digest()] *)
Definition blake2b (digest_size : nat) (data : list byte) : list byte :=
  let h0 := <[0%nat := N.lxor (get IV 0)
                         (N.lxor 0x01010000 (N.of_nat digest_size))]> IV in
  let h := compress (length data) h0 0 data in
  take digest_size (concat (map (le_bytes 8) h)).

End Blake2b.

(* ===================================================================== *)
(** * get_account_hash.py *)
(* ===================================================================== *)

Module AccountHash.
Import Strings.Byte Py Sys.

(** The value of a hexadecimal digit. *)
Definition hex_value (c : N) : option N :=
  (if (48 <=? c) && (c <=? 57) then Some (c - 48)
   else if (97 <=? c) && (c <=? 102) then Some (c - 87)
   else if (65 <=? c) && (c <=? 70) then Some (c - 55)
   else None)%N.

(** ASCII whitespace, skipped by [bytes.fromhex] between bytes. *)
Definition is_ascii_space (c : N) : bool :=
  ((9 <=? c) && (c <=? 13) || (c =? 32))%N.

Definition byte_of_N (n : N) : byte :=
  match of_N (n mod 256) with
  | Some b => b
  | None => x00
  end.

(** [bytes.fromhex]: pairs of hexadecimal digits, with ASCII whitespace
    allowed between pairs only; [None] stands for [ValueError].
    [high] is the first digit of a pair whose second digit is awaited. *)
Fixpoint fromhex_from (high : option N) (s : str) : option (list byte) :=
  match s with
  | [] =>
      match high with
      | None => Some []
      | Some _ => None
      end
  | c :: s' =>
      match high with
      | None =>
          if is_ascii_space c then fromhex_from None s'
          else
            match hex_value c with
            | Some top => fromhex_from (Some top) s'
            | None => None
            end
      | Some top =>
          match hex_value c with
          | Some bot =>
              match fromhex_from None s' with
              | Some bs => Some (byte_of_N (16 * top + bot) :: bs)
              | None => None
              end
          | None => None
          end
      end
  end.

Definition bytes_fromhex (s : str) : option (list byte) :=
  fromhex_from None s.

(** [s.encode('utf-8')] *)
Definition utf8_char (c : N) : list byte :=
  (if c <? 128 then [byte_of_N c]
   else if c <? 2048 then
     [byte_of_N (192 + c / 64); byte_of_N (128 + c mod 64)]
   else if c <? 65536 then
     [byte_of_N (224 + c / 4096); byte_of_N (128 + (c / 64) mod 64);
      byte_of_N (128 + c mod 64)]
   else
     [byte_of_N (240 + c / 262144); byte_of_N (128 + (c / 4096) mod 64);
      byte_of_N (128 + (c / 64) mod 64); byte_of_N (128 + c mod 64)])%N.

Definition encode_utf8 (s : str) : list byte :=
  concat (map utf8_char s).

(** Lowercase hexadecimal text of a byte string ([hexdigest]). *)
Definition hex_digit (n : N) : N :=
  (if n <? 10 then 48 + n else 87 + n)%N.

Definition hex_of_bytes (bs : list byte) : str :=
  concat (map (fun b => [hex_digit (to_N b / 16); hex_digit (to_N b mod 16)])
              bs).

(** The script (lines 4-46); [argv] is [sys.argv]. *)
Definition get_account_hash (argv : list str) : M unit :=
  (if (length argv <? 2)%nat then
     print (py "Usage: python3 get_account_hash.py <public_key_hex>") ;;
     sys_exit 1
   else ret tt) ;;
  let hex_key := nth 1 argv [] in
  let tag := slice_to hex_key 2 in
  let key_bytes_hex := slice_from hex_key 2 in
  key_bytes ←
    match bytes_fromhex key_bytes_hex with
    | Some key_bytes => ret key_bytes
    | None => print (py "Invalid hex string") ;; sys_exit 1
    end;
  algo_name ←
    (if bool_decide (tag = py "01") then
       let algo_name := py "ed25519" in
       if negb (length key_bytes =? 32)%nat then
         print (py "Invalid Ed25519 key length: "
                ++ str_of_nat (length key_bytes)) ;;
         sys_exit 1
       else ret algo_name
     else if bool_decide (tag = py "02") then
       let algo_name := py "secp256k1" in
       if negb (length key_bytes =? 33)%nat then
         print (py "Invalid Secp256k1 key length: "
                ++ str_of_nat (length key_bytes)) ;;
         sys_exit 1
       else ret algo_name
     else
       print (py "Unknown tag " ++ tag) ;;
       sys_exit 1);
  let preimage := encode_utf8 algo_name ++ [x00] ++ key_bytes in
  let account_hash := hex_of_bytes (Blake2b.blake2b 32 preimage) in
  print (py "account-hash-" ++ account_hash).

(** A lowercase hexadecimal digit, [0-9a-f]. *)
Definition is_lower_hex (c : N) : bool :=
  ((48 <=? c) && (c <=? 57) || (97 <=? c) && (c <=? 102))%N.

End AccountHash.

(* ===================================================================== *)
(** * The injected functions do what they are named after *)
(* ===================================================================== *)

Section WasmFacts.
Import Strings.Byte Wasm.

Lemma wrap32_small z : 0 <= z < 2 ^ 32 -> wrap32 z = z.
Proof. intros H. unfold wrap32. by apply Z.mod_small. Qed.

Lemma wrap8_to_N b : wrap8 (Z.of_N (to_N b)) = b.
Proof.
  unfold wrap8. pose proof (to_N_bounded b) as Hb.
  rewrite Z.mod_small by lia. rewrite N2Z.id. by rewrite of_to_N.
Qed.

Lemma load8_u_lookup m (a : nat) b :
  memory m !! a = Some b -> load8_u m (Z.of_nat a) = Done (Z.of_N (to_N b)).
Proof. intros H. unfold load8_u. by rewrite Nat2Z.id, H. Qed.

Lemma store8_in_bounds m (a : nat) v :
  (a < length (memory m))%nat ->
  store8 m (Z.of_nat a) v =
    Done (Machine (<[a := wrap8 v]> (memory m))
                  (stores m ++ [(Z.of_nat a, wrap8 v)])).
Proof.
  intros H. unfold store8.
  destruct (Z.ltb_spec (Z.of_nat a) (Z.of_nat (length (memory m)))); [|lia].
  by rewrite Nat2Z.id.
Qed.

Lemma nth_lookup_byte (mem : list byte) k b :
  mem !! k = Some b -> nth k mem x00 = b.
Proof. intros H. by apply nth_lookup_Some with (d := x00) in H. Qed.


Lemma moved_memmove mem dest src n :
  (dest + n <= length mem)%nat -> (src + n <= length mem)%nat ->
  moved mem dest src n (memmove mem dest src n).
Proof.
  intros Hd Hs. unfold moved, memmove. split.
  - rewrite !length_app, !length_take, !length_drop. lia.
  - intros k. case_decide as Hk.
    + rewrite lookup_app_r by (rewrite length_take; lia).
      rewrite length_take, Nat.min_l by lia.
      rewrite lookup_app_l by (rewrite length_take, length_drop; lia).
      rewrite lookup_take_lt by lia. rewrite lookup_drop. f_equal. lia.
    + destruct (decide (k < dest)%nat).
      * rewrite lookup_app_l by (rewrite length_take; lia).
        by rewrite lookup_take_lt by lia.
      * rewrite lookup_app_r by (rewrite length_take; lia).
        rewrite length_take, Nat.min_l by lia.
        rewrite lookup_app_r by (rewrite length_take, length_drop; lia).
        rewrite length_take, length_drop, Nat.min_l by lia.
        rewrite lookup_drop. f_equal. lia.
Qed.

Lemma moved_unique mem dest src n m1 m2 :
  moved mem dest src n m1 -> moved mem dest src n m2 -> m1 = m2.
Proof.
  intros [_ H1] [_ H2]. apply list_eq. intros k. by rewrite H1, H2.
Qed.

Lemma loop_back_spec (n : nat) :
  forall fuel (dest src : nat) m,
    (n < fuel)%nat -> (src < dest)%nat ->
    (dest + n <= length (memory m))%nat ->
    Z.of_nat (length (memory m)) <= 2 ^ 32 ->
    exists mem',
      loop_back fuel (Z.of_nat dest) (Z.of_nat src) (Z.of_nat n) m =
        Done (Machine mem'
                (stores m ++ copy_log (memory m) dest src (rev (seq 0 n))))
      /\ moved (memory m) dest src n mem'.
Proof.
  induction n as [|n IH]; intros fuel dest src m Hfuel Hlt Hlen H32.
  - destruct fuel as [|fuel]; [lia|]. simpl. exists (memory m). split.
    + rewrite app_nil_r. by destruct m.
    + split; [done|]. intros k. case_decide; [lia|done].
  - destruct fuel as [|fuel]; [lia|].
    cbn [loop_back]. unfold i32_eqz.
    destruct (Z.eqb_spec (Z.of_nat (S n)) 0) as [|_]; [lia|].
    assert (Hi : i32_sub (Z.of_nat (S n)) 1 = Z.of_nat n).
    { unfold i32_sub. rewrite wrap32_small by lia. lia. }
    rewrite Hi.
    assert (Hs : i32_add (Z.of_nat src) (Z.of_nat n) = Z.of_nat (src + n)).
    { unfold i32_add. rewrite wrap32_small by lia. lia. }
    assert (Hd : i32_add (Z.of_nat dest) (Z.of_nat n) = Z.of_nat (dest + n)).
    { unfold i32_add. rewrite wrap32_small by lia. lia. }
    rewrite Hs, Hd.
    destruct (lookup_lt_is_Some_2 (memory m) (src + n)) as [b Hb]; [lia|].
    rewrite (load8_u_lookup _ _ _ Hb). cbn [mbind result_bind].
    rewrite store8_in_bounds by lia. cbn [mbind result_bind].
    rewrite wrap8_to_N.
    set (m1 := Machine _ _).
    destruct (IH fuel dest src m1) as (mem' & Hrun & Hlen' & Hmv).
    + lia.
    + done.
    + subst m1. cbn [memory]. rewrite length_insert. lia.
    + subst m1. cbn [memory]. by rewrite length_insert.
    + exists mem'. split.
      * rewrite Hrun. f_equal. f_equal. subst m1. cbn [memory stores].
        rewrite <- app_assoc. f_equal.
        rewrite seq_S, rev_app_distr. cbn [rev app Nat.add].
        unfold copy_log. cbn [map]. f_equal.
        { by rewrite (nth_lookup_byte _ _ _ Hb). }
        apply map_ext_in. intros j Hj. apply in_rev, in_seq in Hj.
        f_equal. apply nth_lookup_byte.
        rewrite list_lookup_insert_ne by lia.
        destruct (lookup_lt_is_Some_2 (memory m) (src + j)) as [c Hc]; [lia|].
        rewrite Hc. f_equal. symmetry. by apply nth_lookup_byte.
      * subst m1. cbn [memory] in *. rewrite length_insert in Hlen'.
        split; [done|]. intros k. rewrite Hmv.
        repeat case_decide; try lia.
        -- rewrite list_lookup_insert_ne by lia. done.
        -- assert (k = dest + n)%nat as -> by lia.
           rewrite list_lookup_insert_eq by lia.
           rewrite <- Hb. f_equal. lia.
        -- rewrite list_lookup_insert_ne by lia. done.
Qed.


Lemma loop_fwd_spec (r : nat) :
  forall fuel (dest src n i : nat) m,
    (r < fuel)%nat -> (i + r = n)%nat -> (dest <= src)%nat ->
    (src + n <= length (memory m))%nat ->
    Z.of_nat (length (memory m)) <= 2 ^ 32 ->
    Z.of_nat n < 2 ^ 32 ->
    exists mem',
      loop_fwd fuel (Z.of_nat dest) (Z.of_nat src) (Z.of_nat n) (Z.of_nat i) m
      = Done (Machine mem'
                (stores m ++ copy_log (memory m) dest src (seq i r)))
      /\ length mem' = length (memory m)
      /\ forall k, mem' !! k =
           if decide (dest + i <= k < dest + n)%nat
           then memory m !! (k - dest + src)%nat
           else memory m !! k.
Proof.
  induction r as [|r IH]; intros fuel dest src n i m Hfuel Hn Hle Hlen H32 Hn32.
  - destruct fuel as [|fuel]; [lia|]. cbn [loop_fwd]. unfold i32_ge_u.
    destruct (Z.leb_spec (Z.of_nat n) (Z.of_nat i)); [|lia].
    exists (memory m). split; [|split; [done|]].
    + cbn. rewrite app_nil_r. by destruct m.
    + intros k. case_decide; [lia|done].
  - destruct fuel as [|fuel]; [lia|]. cbn [loop_fwd]. unfold i32_ge_u.
    destruct (Z.leb_spec (Z.of_nat n) (Z.of_nat i)); [lia|].
    assert (Hs : i32_add (Z.of_nat src) (Z.of_nat i) = Z.of_nat (src + i)).
    { unfold i32_add. rewrite wrap32_small by lia. lia. }
    assert (Hd : i32_add (Z.of_nat dest) (Z.of_nat i) = Z.of_nat (dest + i)).
    { unfold i32_add. rewrite wrap32_small by lia. lia. }
    assert (Hi : i32_add (Z.of_nat i) 1 = Z.of_nat (S i)).
    { unfold i32_add. rewrite wrap32_small by lia. lia. }
    rewrite Hs, Hd, Hi.
    destruct (lookup_lt_is_Some_2 (memory m) (src + i)) as [b Hb]; [lia|].
    rewrite (load8_u_lookup _ _ _ Hb). cbn [mbind result_bind].
    rewrite store8_in_bounds by lia. cbn [mbind result_bind].
    rewrite wrap8_to_N.
    set (m1 := Machine _ _).
    destruct (IH fuel dest src n (S i) m1) as (mem' & Hrun & Hlen' & Hmv).
    + lia.
    + lia.
    + done.
    + subst m1. cbn [memory]. rewrite length_insert. lia.
    + subst m1. cbn [memory]. by rewrite length_insert.
    + done.
    + exists mem'. split; [|split].
      * rewrite Hrun. f_equal. f_equal. subst m1. cbn [memory stores].
        rewrite <- app_assoc. f_equal.
        unfold copy_log. cbn [seq map app]. f_equal.
        { by rewrite (nth_lookup_byte _ _ _ Hb). }
        apply map_ext_in. intros j Hj. apply in_seq in Hj.
        f_equal. apply nth_lookup_byte.
        rewrite list_lookup_insert_ne by lia.
        destruct (lookup_lt_is_Some_2 (memory m) (src + j)) as [c Hc]; [lia|].
        rewrite Hc. f_equal. symmetry. by apply nth_lookup_byte.
      * subst m1. cbn [memory] in *. by rewrite length_insert in Hlen'.
      * subst m1. cbn [memory] in *. intros k. rewrite Hmv.
        repeat case_decide; try lia.
        -- rewrite list_lookup_insert_ne by lia. done.
        -- assert (k = dest + i)%nat as -> by lia.
           rewrite list_lookup_insert_eq by lia.
           rewrite <- Hb. f_equal. lia.
        -- rewrite list_lookup_insert_ne by lia. done.
Qed.

(** General statement for [$memcpy]. *)
Lemma memcpy_memmove (mem : list byte) (log : list (Z * byte))
      (dest src len : Z) (fuel : nat) :
  0 <= dest -> 0 <= src -> 0 <= len < 2 ^ 32 ->
  dest + len <= Z.of_nat (length mem) ->
  src + len <= Z.of_nat (length mem) ->
  Z.of_nat (length mem) <= 2 ^ 32 ->
  (Z.to_nat len < fuel)%nat ->
  memcpy fuel dest src len (Machine mem log) =
    Done (Machine
            (memmove mem (Z.to_nat dest) (Z.to_nat src) (Z.to_nat len))
            (log ++ copy_log mem (Z.to_nat dest) (Z.to_nat src)
                     (if dest >? src then rev (seq 0 (Z.to_nat len))
                      else seq 0 (Z.to_nat len)))).
Proof.
  intros Hd Hs Hl Hdl Hsl H32 Hfuel.
  rewrite <- (Z2Nat.id dest), <- (Z2Nat.id src), <- (Z2Nat.id len) by lia.
  rewrite !Nat2Z.id.
  set (d := Z.to_nat dest) in *. set (s := Z.to_nat src) in *.
  set (n := Z.to_nat len) in *.
  assert (Hdn : (d + n <= length mem)%nat) by lia.
  assert (Hsn : (s + n <= length mem)%nat) by lia.
  unfold memcpy, i32_gt_u.
  rewrite Z.gtb_ltb.
  destruct (Z.ltb_spec (Z.of_nat s) (Z.of_nat d)).
  - destruct (loop_back_spec n fuel d s (Machine mem log))
      as (mem' & Hrun & Hmv); cbn [memory stores] in *; try lia.
    rewrite Hrun. do 2 f_equal.
    eapply moved_unique; [exact Hmv|]. by apply moved_memmove.
  - destruct (loop_fwd_spec n fuel d s n 0 (Machine mem log))
      as (mem' & Hrun & Hlen' & Hmv); cbn [memory stores] in *; try lia.
    change (Z.of_nat 0) with 0 in Hrun. rewrite Hrun. do 2 f_equal.
    eapply moved_unique; [|by apply moved_memmove].
    split; [done|]. intros k. rewrite Hmv. rewrite Nat.add_0_r. done.
Qed.


Lemma loop_set_spec (r : nat) :
  forall fuel (dest n i : nat) (val : Z) m,
    (r < fuel)%nat -> (i + r = n)%nat ->
    (dest + n <= length (memory m))%nat ->
    Z.of_nat (length (memory m)) <= 2 ^ 32 ->
    Z.of_nat n < 2 ^ 32 ->
    exists mem',
      loop_set fuel (Z.of_nat dest) val (Z.of_nat n) (Z.of_nat i) m
      = Done (Machine mem' (stores m ++ fill_log dest (wrap8 val) (seq i r)))
      /\ length mem' = length (memory m)
      /\ forall k, mem' !! k =
           if decide (dest + i <= k < dest + n)%nat
           then Some (wrap8 val)
           else memory m !! k.
Proof.
  induction r as [|r IH]; intros fuel dest n i val m Hfuel Hn Hlen H32 Hn32.
  - destruct fuel as [|fuel]; [lia|]. cbn [loop_set]. unfold i32_ge_u.
    destruct (Z.leb_spec (Z.of_nat n) (Z.of_nat i)); [|lia].
    exists (memory m). split; [|split; [done|]].
    + cbn. rewrite app_nil_r. by destruct m.
    + intros k. case_decide; [lia|done].
  - destruct fuel as [|fuel]; [lia|]. cbn [loop_set]. unfold i32_ge_u.
    destruct (Z.leb_spec (Z.of_nat n) (Z.of_nat i)); [lia|].
    assert (Hd : i32_add (Z.of_nat dest) (Z.of_nat i) = Z.of_nat (dest + i)).
    { unfold i32_add. rewrite wrap32_small by lia. lia. }
    assert (Hi : i32_add (Z.of_nat i) 1 = Z.of_nat (S i)).
    { unfold i32_add. rewrite wrap32_small by lia. lia. }
    rewrite Hd, Hi.
    rewrite store8_in_bounds by lia. cbn [mbind result_bind].
    set (m1 := Machine _ _).
    destruct (IH fuel dest n (S i) val m1) as (mem' & Hrun & Hlen' & Hmv);
      try (subst m1; cbn [memory]; rewrite ?length_insert; lia).
    exists mem'. subst m1. cbn [memory stores] in *.
    rewrite length_insert in Hlen'. split; [|split; [done|]].
    + rewrite Hrun. rewrite <- app_assoc. done.
    + intros k. rewrite Hmv. repeat case_decide; try lia; try done.
      * assert (k = dest + i)%nat as -> by lia.
        by rewrite list_lookup_insert_eq by lia.
      * by rewrite list_lookup_insert_ne by lia.
Qed.

Lemma fill_lookup (mem : list byte) dest b n k :
  (dest + n <= length mem)%nat ->
  fill mem dest b n !! k =
    if decide (dest <= k < dest + n)%nat then Some b else mem !! k.
Proof.
  intros Hd. unfold fill. case_decide as Hk.
  - rewrite lookup_app_r by (rewrite length_take; lia).
    rewrite length_take, Nat.min_l by lia.
    rewrite lookup_app_l by (rewrite length_replicate; lia).
    apply lookup_replicate_2. lia.
  - destruct (decide (k < dest)%nat).
    + rewrite lookup_app_l by (rewrite length_take; lia).
      by rewrite lookup_take_lt by lia.
    + rewrite lookup_app_r by (rewrite length_take; lia).
      rewrite length_take, Nat.min_l by lia.
      rewrite lookup_app_r by (rewrite length_replicate; lia).
      rewrite length_replicate, lookup_drop. f_equal. lia.
Qed.

Lemma memset_fill (mem : list byte) (log : list (Z * byte))
      (dest val len : Z) (fuel : nat) :
  0 <= dest -> 0 <= len < 2 ^ 32 ->
  dest + len <= Z.of_nat (length mem) ->
  Z.of_nat (length mem) <= 2 ^ 32 ->
  (Z.to_nat len < fuel)%nat ->
  memset fuel dest val len (Machine mem log) =
    Done (Machine
            (fill mem (Z.to_nat dest) (wrap8 val) (Z.to_nat len))
            (log ++ fill_log (Z.to_nat dest) (wrap8 val)
                     (seq 0 (Z.to_nat len)))).
Proof.
  intros Hd Hl Hdl H32 Hfuel.
  rewrite <- (Z2Nat.id dest), <- (Z2Nat.id len) by lia.
  rewrite !Nat2Z.id.
  set (d := Z.to_nat dest) in *. set (n := Z.to_nat len) in *.
  unfold memset.
  destruct (loop_set_spec n fuel d n 0 val (Machine mem log))
    as (mem' & Hrun & Hlen' & Hmv); cbn [memory stores] in *; try lia.
  change (Z.of_nat 0) with 0 in Hrun. rewrite Hrun. do 2 f_equal.
  apply list_eq. intros k. rewrite Hmv, fill_lookup by lia.
  by rewrite Nat.add_0_r.
Qed.

(** C1.  [$memcpy] has move semantics: whenever both regions lie within
    the memory, the call ends with the memory equal to the reference move
    of [len] bytes from [src] to [dest], overlapping or not; the bytes are
    stored from index [len - 1] down to [0] when [dest > src] and from
    index [0] up to [len - 1] otherwise.  A call with [len = 0] performs
    no store and leaves the machine as it was, wherever [dest] and [src]
    point. *)
Theorem memcpy_move_semantics :
  (forall (mem : list byte) (log : list (Z * byte)) (dest src len : Z)
          (fuel : nat),
      0 <= dest < 2 ^ 32 -> 0 <= src < 2 ^ 32 -> 0 <= len < 2 ^ 32 ->
      dest + len <= Z.of_nat (length mem) ->
      src + len <= Z.of_nat (length mem) ->
      Z.of_nat (length mem) <= 2 ^ 32 ->
      (Z.to_nat len < fuel)%nat ->
      memcpy fuel dest src len (Machine mem log) =
        Done (Machine
                (memmove mem (Z.to_nat dest) (Z.to_nat src) (Z.to_nat len))
                (log ++ copy_log mem (Z.to_nat dest) (Z.to_nat src)
                         (if dest >? src then rev (seq 0 (Z.to_nat len))
                          else seq 0 (Z.to_nat len)))))
  /\ (forall (m : machine) (dest src : Z) (fuel : nat),
         memcpy (S fuel) dest src 0 m = Done m).
Proof.
  split.
  - intros mem log dest src len fuel Hd Hs Hl Hdl Hsl H32 Hfuel.
    apply memcpy_memmove; lia.
  - intros m dest src fuel. unfold memcpy.
    by destruct (i32_gt_u dest src).
Qed.

(** The overlapping call of the specification: [dest = 5], [src = 0],
    [len = 10] on the sixteen bytes [00 .. 0f]. *)
Lemma memcpy_move_semantics_witness :
  memcpy 11 5 0 10
    (Machine [x00; x01; x02; x03; x04; x05; x06; x07;
              x08; x09; x0a; x0b; x0c; x0d; x0e; x0f] [])
  = Done (Machine
            (memmove [x00; x01; x02; x03; x04; x05; x06; x07;
                      x08; x09; x0a; x0b; x0c; x0d; x0e; x0f] 5 0 10)
            (copy_log [x00; x01; x02; x03; x04; x05; x06; x07;
                       x08; x09; x0a; x0b; x0c; x0d; x0e; x0f] 5 0
                      [9; 8; 7; 6; 5; 4; 3; 2; 1; 0]%nat)).
Proof.
  apply (proj1 memcpy_move_semantics
           [x00; x01; x02; x03; x04; x05; x06; x07;
            x08; x09; x0a; x0b; x0c; x0d; x0e; x0f] [] 5 0 10 11%nat);
    cbn; lia.
Defined.

(** The same call, evaluated: the ten bytes [00 .. 09] land at offset 5
    although the regions overlap, and the stores go from offset 14 down
    to offset 5. *)
Example memcpy_overlap_run :
  memcpy 11 5 0 10
    (Machine [x00; x01; x02; x03; x04; x05; x06; x07;
              x08; x09; x0a; x0b; x0c; x0d; x0e; x0f] [])
  = Done (Machine
            [x00; x01; x02; x03; x04; x00; x01; x02;
             x03; x04; x05; x06; x07; x08; x09; x0f]
            [(14, x09); (13, x08); (12, x07); (11, x06); (10, x05);
             (9, x04); (8, x03); (7, x02); (6, x01); (5, x00)]).
Proof. vm_compute. reflexivity. Qed.

(** A forward-only copy would be wrong on this input: the reference move
    is not what copying upwards from index 0 gives. *)
Example forward_copy_differs :
  loop_fwd 11 5 0 10 0
    (Machine [x00; x01; x02; x03; x04; x05; x06; x07;
              x08; x09; x0a; x0b; x0c; x0d; x0e; x0f] [])
  <> memcpy 11 5 0 10
    (Machine [x00; x01; x02; x03; x04; x05; x06; x07;
              x08; x09; x0a; x0b; x0c; x0d; x0e; x0f] []).
Proof. vm_compute. discriminate. Qed.

(** Outside the memory the call traps. *)
Example memcpy_out_of_bounds :
  memcpy 5 6 0 4 (Machine [x00; x01; x02; x03; x04; x05; x06; x07] [])
  = Trap.
Proof. vm_compute. reflexivity. Qed.

(** C6.  [$memset] stores the low byte of [val] at [dest + i] for
    [i = 0, 1, ..., len - 1] in that order and leaves every other byte
    unchanged, whenever the region lies within the memory.  A call with
    [len = 0] performs no store, wherever [dest] points. *)
Theorem memset_fill_semantics :
  (forall (mem : list byte) (log : list (Z * byte)) (dest val len : Z)
          (fuel : nat),
      0 <= dest < 2 ^ 32 -> 0 <= len < 2 ^ 32 ->
      dest + len <= Z.of_nat (length mem) ->
      Z.of_nat (length mem) <= 2 ^ 32 ->
      (Z.to_nat len < fuel)%nat ->
      memset fuel dest val len (Machine mem log) =
        Done (Machine
                (fill mem (Z.to_nat dest) (wrap8 val) (Z.to_nat len))
                (log ++ fill_log (Z.to_nat dest) (wrap8 val)
                         (seq 0 (Z.to_nat len))))
      /\ forall k : nat,
           fill mem (Z.to_nat dest) (wrap8 val) (Z.to_nat len) !! k =
             if decide (Z.to_nat dest <= k < Z.to_nat dest + Z.to_nat len)%nat
             then Some (wrap8 val) else mem !! k)
  /\ (forall (m : machine) (dest val : Z) (fuel : nat),
         memset (S fuel) dest val 0 m = Done m).
Proof.
  split.
  - intros mem log dest val len fuel Hd Hl Hdl H32 Hfuel. split.
    + apply memset_fill; lia.
    + intros k. apply fill_lookup. lia.
  - intros m dest val fuel. reflexivity.
Qed.

(** The fill of the specification: [dest = 0], [val = 0xFF], [len = 4] on
    eight zero bytes gives [FF FF FF FF 00 00 00 00]. *)
Lemma memset_fill_semantics_witness :
  memset 5 0 255 4
    (Machine [x00; x00; x00; x00; x00; x00; x00; x00] [])
  = Done (Machine [xff; xff; xff; xff; x00; x00; x00; x00]
                  [(0, xff); (1, xff); (2, xff); (3, xff)]).
Proof.
  rewrite (proj1 (proj1 memset_fill_semantics
                    [x00; x00; x00; x00; x00; x00; x00; x00] [] 0 255 4
                    5%nat ltac:(lia) ltac:(lia) ltac:(cbn; lia)
                    ltac:(cbn; lia) ltac:(cbn; lia))).
  reflexivity.
Defined.

(** Only the low byte of the value is stored. *)
Example memset_truncates :
  memset 3 1 511 2 (Machine [x00; x00; x00; x00] [])
  = Done (Machine [x00; xff; xff; x00] [(1, xff); (2, xff)]).
Proof. vm_compute. reflexivity. Qed.

End WasmFacts.

(* ===================================================================== *)
(** * Facts about text, search and matching *)
(* ===================================================================== *)

Section TextFacts.
Import Py.

Lemma startswith_spec (p s : str) :
  startswith p s = true <-> exists r, s = p ++ r.
Proof.
  revert s. induction p as [|a p IH]; intros s; cbn.
  - split; [eauto|done].
  - destruct s as [|b s].
    + split; [done|]. by intros [r Hr].
    + rewrite andb_true_iff, N.eqb_eq, IH. split.
      * intros [-> [r ->]]. eauto.
      * intros [r Hr]. injection Hr as -> ->. eauto.
Qed.

Lemma startswith_app (p r : str) : startswith p (p ++ r) = true.
Proof. apply startswith_spec. eauto. Qed.

Lemma contains_spec (sub s : str) :
  contains sub s = true <-> exists pre post, s = pre ++ sub ++ post.
Proof.
  induction s as [|c s IH]; cbn [contains].
  - rewrite orb_false_r, startswith_spec. split.
    + intros [r Hr]. exists [], r. done.
    + intros (pre & post & H). destruct pre; [by eauto|done].
  - rewrite orb_true_iff, startswith_spec, IH. split.
    + intros [[r Hr]|(pre & post & ->)].
      * exists [], r. done.
      * exists (c :: pre), post. done.
    + intros (pre & post & H). destruct pre as [|c' pre].
      * left. eauto.
      * right. injection H as -> ->. eauto.
Qed.

Lemma contains_app_r (sub a b : str) :
  contains sub (a ++ b) = false -> contains sub b = false.
Proof.
  intros H. apply not_true_is_false. intros Hb. 
  apply not_true_iff_false in H. apply H.
  apply contains_spec in Hb as (pre & post & ->).
  apply contains_spec. exists (a ++ pre), post. by rewrite <- app_assoc.
Qed.

Lemma contains_app_l (sub a b : str) :
  contains sub (a ++ b) = false -> contains sub a = false.
Proof.
  intros H. apply not_true_is_false. intros Ha.
  apply not_true_iff_false in H. apply H.
  apply contains_spec in Ha as (pre & post & ->).
  apply contains_spec. exists pre, (post ++ b). by rewrite <- !app_assoc.
Qed.

Lemma contains_char (c : N) (s : str) :
  contains [c] s = true <-> c ∈ s.
Proof.
  rewrite contains_spec. split.
  - intros (pre & post & ->). set_solver.
  - intros (pre & post & ->)%list_elem_of_split. eauto.
Qed.

Lemma strip_spec (w s r : str) : strip w s = Some r <-> s = w ++ r.
Proof.
  revert s. induction w as [|a w IH]; intros s; cbn.
  - split; [by intros [= ->]|by intros ->].
  - destruct s as [|b s]; [done|].
    destruct (N.eqb_spec a b) as [->|Hne].
    + rewrite IH. split; [by intros ->|by intros [= ->]].
    + split; [done|]. intros [= -> ->]. done.
Qed.

Lemma strip_startswith (w s : str) :
  strip w s = None <-> startswith w s = false.
Proof.
  rewrite <- not_true_iff_false, startswith_spec. split.
  - intros H [r Hr]. apply strip_spec in Hr. congruence.
  - intros H. destruct (strip w s) as [r|] eqn:E; [|done].
    apply strip_spec in E. destruct H. eauto.
Qed.

(** [rfind] of one character. *)
Lemma rfind_absent (c : N) (s : str) : c ∉ s -> rfind [c] s = -1.
Proof.
  induction s as [|b s IH]; intros H; cbn; [done|].
  rewrite IH by set_solver. cbn.
  destruct (N.eqb_spec c b) as [->|]; [set_solver|done].
Qed.

Lemma rfind_last (c : N) (pre post : str) :
  c ∉ post -> rfind [c] (pre ++ c :: post) = Z.of_nat (length pre).
Proof.
  intros H. induction pre as [|b pre IH].
  - cbn. rewrite rfind_absent by done. cbn. by rewrite N.eqb_refl.
  - cbn [app rfind length]. rewrite IH. cbv zeta.
    rewrite (proj2 (Z.leb_le 0 (Z.of_nat (length pre)))) by lia. lia.
Qed.

Lemma split_last (c : N) (s : str) :
  c ∈ s -> exists pre post, s = pre ++ c :: post /\ c ∉ post.
Proof.
  induction s as [|b s IH]; intros H; [set_solver|].
  destruct (decide (c ∈ s)) as [Hin|Hnin].
  - destruct (IH Hin) as (pre & post & -> & Hp). by exists (b :: pre), post.
  - apply elem_of_cons in H as [->|H]; [|done]. by exists [], s.
Qed.

Lemma slice_to_app (pre rest : str) :
  slice_to (pre ++ rest) (Z.of_nat (length pre)) = pre.
Proof.
  unfold slice_to, clip. rewrite length_app.
  destruct (Z.ltb_spec (Z.of_nat (length pre)) 0); [lia|].
  rewrite Z.min_l by lia. rewrite Nat2Z.id. by rewrite take_app_length.
Qed.

Lemma slice_from_app (pre rest : str) :
  slice_from (pre ++ rest) (Z.of_nat (length pre)) = rest.
Proof.
  unfold slice_from, clip. rewrite length_app.
  destruct (Z.ltb_spec (Z.of_nat (length pre)) 0); [lia|].
  rewrite Z.min_l by lia. rewrite Nat2Z.id. by rewrite drop_app_length.
Qed.


(** ** Prefixes, suffixes and clashes *)

Lemma tails_nonempty (s t : str) : t ∈ tails s -> t <> [].
Proof.
  induction s as [|c s IH]; cbn; [set_solver|].
  intros [->|H]%elem_of_cons; [done|auto].
Qed.

Lemma tails_self (s : str) : s <> [] -> s ∈ tails s.
Proof. destruct s; [done|]. intros _. cbn. set_solver. Qed.

Lemma tails_app (x t : str) : t <> [] -> t ∈ tails (x ++ t).
Proof.
  intros Ht. induction x as [|c x IH]; cbn.
  - by apply tails_self.
  - set_solver.
Qed.

Lemma tails_tail (s : str) (a : N) (t : str) :
  a :: t ∈ tails s -> t <> [] -> t ∈ tails s.
Proof.
  induction s as [|c s IH]; cbn; [set_solver|].
  intros [[= -> ->]|H]%elem_of_cons Ht.
  - apply elem_of_cons. right. by apply tails_self.
  - apply elem_of_cons. right. by apply IH.
Qed.

Lemma compat_app (p r x : str) :
  startswith p (r ++ x) = true -> compat p r = true.
Proof.
  unfold compat. revert r. induction p as [|a p IH]; intros r H; [done|].
  destruct r as [|b r]; [by rewrite orb_true_r|].
  cbn in *. apply andb_true_iff in H as [Hab H].
  apply IH in H. rewrite Hab. rewrite N.eqb_sym, Hab. done.
Qed.

Lemma clash_spec (a b t : str) :
  clash a b = true -> t ∈ tails a -> compat t b = false.
Proof.
  unfold clash. rewrite forallb_forall. intros H Ht.
  apply list_elem_of_In, H in Ht. by apply negb_true_iff in Ht.
Qed.

Lemma compat_sym (a b : str) : compat a b = compat b a.
Proof. unfold compat. apply orb_comm. Qed.

(** A prefix of [x ++ y] either fits in [x] or ends with a head of [y]. *)
Lemma startswith_app_split (w x y : str) :
  startswith w (x ++ y) = true ->
  startswith w x = true \/
  exists t, t <> [] /\ w = x ++ t /\ startswith t y = true.
Proof.
  revert x. induction w as [|a w IH]; intros x H; [by left|].
  destruct x as [|c x].
  - right. exists (a :: w). done.
  - cbn in H. apply andb_true_iff in H as [Hac H].
    apply N.eqb_eq in Hac as ->.
    destruct (IH _ H) as [Hx|(t & Ht & -> & Hy)].
    + left. cbn. by rewrite N.eqb_refl.
    + right. exists t. done.
Qed.

(** An occurrence in [a ++ x] starts in [a] or lies in [x]. *)
Lemma contains_app_split (v a x : str) :
  contains v (a ++ x) = true ->
  (exists t, t ∈ tails a /\ startswith v (t ++ x) = true)
  \/ contains v x = true.
Proof.
  induction a as [|c a IH]; intros H; [by right|].
  cbn [app contains] in H. apply orb_true_iff in H as [H|H].
  - left. exists (c :: a). split; [apply elem_of_cons; by left|done].
  - destruct (IH H) as [(t & Ht & Hs)|Hx]; [|by right].
    left. exists t. split; [apply elem_of_cons; by right|done].
Qed.

Lemma contains_startswith (v s : str) :
  startswith v s = true -> contains v s = true.
Proof. intros H. destruct s; cbn; by rewrite H. Qed.

Lemma contains_cons (v : str) (c : N) (s : str) :
  contains v s = true -> contains v (c :: s) = true.
Proof. intros H. cbn. rewrite H. apply orb_true_r. Qed.

Lemma contains_suffix (v s r : str) :
  r `suffix_of` s -> contains v r = true -> contains v s = true.
Proof.
  intros [k ->] H. induction k as [|c k IH]; [done|].
  by apply contains_cons.
Qed.

(** ** The matcher on the two patterns *)

Lemma space_plus_greedy (k : str -> option str) (s : str) :
  (forall c r, is_space c = true -> k (c :: r) = None) ->
  space_plus s k =
    match s with
    | [] => None
    | c :: s' => if is_space c then k (drop_ws s') else None
    end.
Proof.
  intros Hk. induction s as [|c s IH]; [done|].
  cbn [space_plus]. destruct (is_space c) eqn:Hc; [|done].
  rewrite IH. destruct s as [|c2 s]; [done|].
  cbn [drop_ws]. destruct (is_space c2) eqn:Hc2.
  - rewrite (Hk c2 s Hc2). by destruct (k (drop_ws s)).
  - done.
Qed.

Lemma rmatch_operand_then (k : str -> option str) (s : str) :
  space_plus s (fun s' => match strip [48%N] s' with
                          | Some s'' => k s''
                          | None => None
                          end)
  = operand s ≫= k.
Proof.
  rewrite space_plus_greedy.
  - unfold operand. destruct s as [|c s]; [done|].
    destruct (is_space c); [|done].
    destruct (drop_ws s) as [|z r]; [done|]. cbn [strip].
    rewrite (N.eqb_sym 48 z). by destruct (z =? 48)%N.
  - intros c r Hc. cbn [strip]. destruct (N.eqb_spec 48 c) as [<-|]; [|done].
    discriminate Hc.
Qed.

End TextFacts.

(** ** The scanning loop, for a pattern that is a mnemonic followed by an
    optional group *)

Section Scan.
Import Py.

(** [pat] matches exactly where the word [W] starts, and then consumes
    [W] and whatever [skip] drops of the text that follows. *)
Variables (pat : regex) (W repl : str) (skip : str -> str).
Hypothesis pat_match : forall s, rmatch pat s Some = skip <$> strip W s.
Hypothesis skip_suffix : forall r, skip r `suffix_of` r.
Hypothesis W_nonempty : W <> [].

Lemma match_shorter (s rest : str) :
  rmatch pat s Some = Some rest -> (length rest < length s)%nat.
Proof.
  rewrite pat_match. destruct (strip W s) as [r|] eqn:E; [|done].
  intros [= <-]. apply strip_spec in E as ->.
  destruct (skip_suffix r) as [k Hk]. rewrite Hk at 2.
  rewrite !length_app. destruct W; [done|]. cbn. lia.
Qed.

Lemma sub_loop_fuel2 (f1 f2 : nat) (s : str) :
  (length s <= f1)%nat -> (length s <= f2)%nat ->
  sub_loop f1 pat repl s = sub_loop f2 pat repl s.
Proof.
  revert f2 s. induction f1 as [|f1 IH]; intros f2 s H1 H2.
  - destruct s; [|cbn in H1; lia]. by destruct f2.
  - destruct s as [|c s]; [by destruct f2|].
    destruct f2 as [|f2]; [cbn in H2; lia|].
    cbn [length] in H1, H2. cbn [sub_loop].
    destruct (rmatch pat (c :: s) Some) as [rest|] eqn:E.
    + apply match_shorter in E. cbn [length] in E.
      f_equal. apply IH; lia.
    + f_equal. apply IH; lia.
Qed.

Lemma sub_loop_fuel (fuel : nat) (s : str) :
  (length s <= fuel)%nat -> sub_loop fuel pat repl s = re_sub pat repl s.
Proof. intros H. unfold re_sub. by apply sub_loop_fuel2. Qed.

Lemma re_sub_nil : re_sub pat repl [] = [].
Proof. done. Qed.

Lemma re_sub_cons (c : N) (s : str) :
  re_sub pat repl (c :: s) =
    match rmatch pat (c :: s) Some with
    | Some rest => repl ++ re_sub pat repl rest
    | None => c :: re_sub pat repl s
    end.
Proof.
  unfold re_sub at 1. cbn [length sub_loop].
  destruct (rmatch pat (c :: s) Some) as [rest|] eqn:E.
  - apply match_shorter in E. cbn [length] in E.
    by rewrite sub_loop_fuel by lia.
  - done.
Qed.

(** A match: the word and what the optional group takes are replaced. *)
Lemma re_sub_hit (rest : str) :
  re_sub pat repl (W ++ rest) = repl ++ re_sub pat repl (skip rest).
Proof.
  assert (exists c s, W ++ rest = c :: s) as (c & s & E).
  { destruct W as [|c s]; [done|]. by exists c, (s ++ rest). }
  rewrite E, re_sub_cons, <- E, pat_match.
  by rewrite (proj2 (strip_spec W _ rest) eq_refl).
Qed.

(** No match at this position: the character is copied. *)
Lemma re_sub_miss (c : N) (s : str) :
  startswith W (c :: s) = false ->
  re_sub pat repl (c :: s) = c :: re_sub pat repl s.
Proof.
  intros H. rewrite re_sub_cons, pat_match.
  by rewrite (proj2 (strip_startswith W (c :: s)) H).
Qed.

(** Induction along the scan. *)
Lemma re_sub_ind (P : str -> Prop) :
  P [] ->
  (forall c s, startswith W (c :: s) = false -> P s -> P (c :: s)) ->
  (forall rest, P (skip rest) -> P (W ++ rest)) ->
  forall s, P s.
Proof.
  intros Hnil Hmiss Hhit s.
  remember (length s) as n eqn:Hn. revert s Hn.
  induction (lt_wf n) as [n _ IH]. intros s ->.
  destruct s as [|c s]; [done|].
  destruct (startswith W (c :: s)) eqn:E.
  - apply startswith_spec in E as [rest E]. rewrite E. apply Hhit.
    apply (IH (length (skip rest))); [|done].
    rewrite E. destruct (skip_suffix rest) as [k Hk]. rewrite Hk at 2.
    rewrite !length_app. destruct W; [done|]. cbn. lia.
  - apply Hmiss; [done|]. apply (IH (length s)); [cbn; lia|done].
Qed.

(** A text without the word is left as it is. *)
Lemma re_sub_absent (s : str) :
  contains W s = false -> re_sub pat repl s = s.
Proof.
  induction s as [|c s IH]; [done|]. cbn [contains].
  intros [H1 H2]%orb_false_iff. rewrite re_sub_miss by done.
  by rewrite IH.
Qed.

(** A character other than the first one of the word is copied. *)
Lemma re_sub_other (c : N) (s : str) :
  head W <> Some c -> re_sub pat repl (c :: s) = c :: re_sub pat repl s.
Proof.
  intros H. apply re_sub_miss. destruct W as [|w0 W']; [done|]. cbn.
  destruct (N.eqb_spec w0 c) as [->|]; [by destruct H|done].
Qed.

Lemma re_sub_others (x y : str) :
  Forall (fun c => head W <> Some c) x ->
  re_sub pat repl (x ++ y) = x ++ re_sub pat repl y.
Proof.
  induction 1 as [|c x Hc _ IH]; [done|].
  cbn [app]. by rewrite re_sub_other, IH.
Qed.

(** A text in which the word cannot start is copied. *)
Lemma re_sub_inert (f y : str) :
  clash f W = true -> re_sub pat repl (f ++ y) = f ++ re_sub pat repl y.
Proof.
  induction f as [|c f IH]; [done|]. intros H.
  cbn [app]. rewrite re_sub_miss.
  - rewrite IH; [done|]. unfold clash in *. cbn [tails forallb] in H.
    by apply andb_true_iff in H as [_ H].
  - apply not_true_is_false. intros Hs.
    change (c :: f ++ y) with ((c :: f) ++ y) in Hs.
    apply compat_app in Hs. rewrite compat_sym in Hs.
    rewrite (clash_spec (c :: f) W (c :: f) H) in Hs; [done|].
    by apply tails_self.
Qed.

(** The first occurrence of the word, for a word without a border (no
    proper suffix of it is also a prefix of it). *)
Hypothesis W_unbordered : clash (tail W) W = true.

Lemma re_sub_first (pre rest : str) :
  contains W pre = false ->
  re_sub pat repl (pre ++ W ++ rest)
  = pre ++ repl ++ re_sub pat repl (skip rest).
Proof.
  induction pre as [|c pre IH]; intros H.
  - apply re_sub_hit.
  - cbn [contains] in H. apply orb_false_iff in H as [H1 H2].
    cbn [app]. rewrite re_sub_miss; [by rewrite IH|].
    apply not_true_is_false. intros Hs.
    change (c :: pre ++ W ++ rest) with ((c :: pre) ++ W ++ rest) in Hs.
    apply startswith_app_split in Hs as [Hs|(t & Ht & HW & Hs)].
    + congruence.
    + apply compat_app in Hs.
      rewrite (clash_spec (tail W) W t W_unbordered) in Hs; [done|].
      rewrite HW. cbn [tail app]. by apply tails_app.
Qed.

(** ** Which words can appear in the result *)

(** The head of the result is a head of the scanned text, for any text
    that cannot run into the replacement. *)
Lemma re_sub_prefix_back (V t s : str) :
  clash V repl = true -> t ∈ tails V ->
  startswith t (re_sub pat repl s) = true -> startswith t s = true.
Proof.
  intros HV. revert t. induction s as [|c s Hc IH|rest IH] using re_sub_ind;
    intros t Ht.
  - by rewrite re_sub_nil.
  - rewrite re_sub_miss by done.
    destruct t as [|a t]; [done|]. cbn [startswith].
    intros [Hac Hs]%andb_true_iff. rewrite Hac. cbn.
    destruct t as [|a' t]; [done|].
    apply IH; [|done]. eapply tails_tail; [exact Ht|done].
  - rewrite re_sub_hit. intros Hs. apply compat_app in Hs.
    by rewrite (clash_spec V repl t HV Ht) in Hs.
Qed.

(** A word that clashes with the replacement occurs in the result only
    if it occurred in the scanned text. *)
Lemma re_sub_no_new (V s : str) :
  clash V repl = true -> clash repl V = true ->
  contains V (re_sub pat repl s) = true -> contains V s = true.
Proof.
  intros HV HR. destruct V as [|v0 V'] eqn:EV.
  { intros _. by destruct s. }
  rewrite <- EV in *. assert (HVne : V <> []) by (by rewrite EV).
  clear EV. induction s as [|c s Hc IH|rest IH] using re_sub_ind.
  - by rewrite re_sub_nil.
  - intros H. rewrite re_sub_miss in H by done.
    cbn [contains] in H. apply orb_true_iff in H as [H|H].
    + apply contains_startswith.
      apply (re_sub_prefix_back V V (c :: s) HV (tails_self V HVne)).
      by rewrite re_sub_miss.
    + apply contains_cons. by apply IH.
  - rewrite re_sub_hit. intros H.
    apply contains_app_split in H as [(t & Ht & Hs)|H].
    + apply compat_app in Hs. rewrite compat_sym in Hs.
      by rewrite (clash_spec repl V t HR Ht) in Hs.
    + apply IH in H. eapply contains_suffix; [|exact H].
      destruct (skip_suffix rest) as [k Hk]. exists (W ++ k).
      rewrite Hk at 1. by rewrite <- app_assoc.
Qed.

(** The word itself does not occur in the result. *)
Lemma re_sub_none_left (s : str) :
  clash W repl = true -> clash repl W = true ->
  contains W (re_sub pat repl s) = false.
Proof.
  intros HV HR. apply not_true_is_false.
  induction s as [|c s Hc IH|rest IH] using re_sub_ind.
  - rewrite re_sub_nil. cbn. by destruct W.
  - intros H. rewrite re_sub_miss in H by done.
    cbn [contains] in H. apply orb_true_iff in H as [H|H]; [|done].
    rewrite <- (re_sub_miss c s Hc) in H.
    apply (re_sub_prefix_back W W (c :: s) HV (tails_self W W_nonempty)) in H.
    congruence.
  - rewrite re_sub_hit. intros H.
    apply contains_app_split in H as [(t & Ht & Hs)|H]; [|done].
    apply compat_app in Hs. rewrite compat_sym in Hs.
    by rewrite (clash_spec repl W t HR Ht) in Hs.
Qed.

(** ** Scanning a concatenation *)

(** When the text [b] that follows can neither complete the word nor
    feed the optional group, scanning [a ++ b] is scanning [a], then
    [b]. *)
Lemma re_sub_app (a b : str) :
  (forall x, strip W (x ++ b) = (.++ b) <$> strip W x) ->
  (forall r, skip (r ++ b) = skip r ++ b) ->
  re_sub pat repl (a ++ b) = re_sub pat repl a ++ re_sub pat repl b.
Proof.
  intros Hstrip Hskip.
  induction a as [|c s Hc IH|rest IH] using re_sub_ind.
  - done.
  - rewrite (re_sub_miss c s Hc). cbn [app]. rewrite re_sub_miss.
    + by rewrite IH.
    + apply strip_startswith. change (c :: s ++ b) with ((c :: s) ++ b).
      rewrite Hstrip. by rewrite (proj2 (strip_startswith W (c :: s)) Hc).
  - rewrite <- app_assoc, !re_sub_hit, Hskip, IH. by rewrite app_assoc.
Qed.

End Scan.

(** ** The operand group *)

Section Operands.
Import Py.

Lemma drop_ws_spaces (ws : str) (z : N) (r : str) :
  spaces ws -> is_space z = false -> drop_ws (ws ++ z :: r) = z :: r.
Proof.
  intros Hws Hz. induction Hws as [|c ws Hc _ IH]; cbn.
  - by rewrite Hz.
  - by rewrite Hc.
Qed.

Lemma drop_ws_split (s : str) :
  exists ws, spaces ws /\ s = ws ++ drop_ws s.
Proof.
  induction s as [|c s (ws & Hws & IH)].
  { exists []. split; [constructor|done]. }
  cbn. destruct (is_space c) eqn:Hc.
  - exists (c :: ws). split; [by constructor|]. cbn. by rewrite <- IH.
  - exists []. split; [constructor|done].
Qed.

Lemma drop_ws_suffix (s : str) : drop_ws s `suffix_of` s.
Proof. destruct (drop_ws_split s) as (ws & _ & H). by exists ws. Qed.

Lemma operand_spec (r r' : str) :
  operand r = Some r' <->
  exists ws, ws <> [] /\ spaces ws /\ r = ws ++ 48%N :: r'.
Proof.
  split.
  - unfold operand. destruct r as [|c s]; [done|].
    destruct (is_space c) eqn:Hc; [|done].
    destruct (drop_ws_split s) as (ws & Hws & Hs).
    destruct (drop_ws s) as [|z t]; [done|].
    destruct (N.eqb_spec z 48) as [->|]; [|done]. intros [= ->].
    exists (c :: ws). split; [done|]. split; [by constructor|].
    cbn. by rewrite <- Hs.
  - intros (ws & Hne & Hws & ->). destruct ws as [|c ws]; [done|].
    inversion Hws as [|? ? Hc Hws']; subst. cbn. rewrite Hc.
    by rewrite drop_ws_spaces.
Qed.

Lemma operand_suffix (r r' : str) : operand r = Some r' -> r' `suffix_of` r.
Proof.
  intros (ws & _ & _ & ->)%operand_spec. exists (ws ++ [48%N]).
  by rewrite <- app_assoc.
Qed.

Lemma drop_ws_app (r b : str) :
  drop_ws (r ++ b) =
    match drop_ws r with
    | [] => drop_ws b
    | _ :: _ => drop_ws r ++ b
    end.
Proof.
  induction r as [|c r IH]; cbn; [done|].
  destruct (is_space c); [done|]. done.
Qed.

Lemma operand_barrier (b : str) : barrier b -> operand b = None.
Proof.
  intros (ws & p & b' & -> & Hws & Hp & Hp0).
  destruct Hws as [|c ws Hc Hws]; cbn.
  - by rewrite Hp.
  - rewrite Hc, drop_ws_spaces by done.
    by destruct (N.eqb_spec p 48).
Qed.

Lemma operand_app (r b : str) :
  barrier b -> operand (r ++ b) = (.++ b) <$> operand r.
Proof.
  intros Hb. destruct r as [|c r]; [by apply operand_barrier|].
  cbn. destruct (is_space c); [|done].
  rewrite drop_ws_app. destruct (drop_ws r) as [|z t].
  - destruct Hb as (ws & p & b' & -> & Hws & Hp & Hp0).
    rewrite drop_ws_spaces by done. by destruct (N.eqb_spec p 48).
  - cbn. by destruct (z =? 48)%N.
Qed.

Lemma strip_app_fresh (w b x : str) :
  (forall h, head b = Some h -> h ∉ w) -> b <> [] ->
  strip w (x ++ b) = (.++ b) <$> strip w x.
Proof.
  intros Hh Hb. revert x. induction w as [|a w IH]; intros x; [done|].
  destruct x as [|c x].
  - destruct b as [|h b]; [done|]. cbn.
    destruct (N.eqb_spec a h) as [->|]; [|done].
    destruct (Hh h eq_refl). set_solver.
  - cbn. destruct (a =? c)%N; [|done]. apply IH.
    intros h Hhd. specialize (Hh h Hhd). set_solver.
Qed.

End Operands.

(** ** The two substitutions of the pass *)

Section Rewriter.
Import Py Sys Polyfill.

Lemma copy_match (s : str) :
  rmatch COPY_RE s Some = skip_copy <$> strip MEMORY_COPY s.
Proof.
  unfold COPY_RE. cbn [rmatch]. destruct (strip MEMORY_COPY s) as [r|]; [|done].
  cbn [fmap option_fmap option_map]. unfold skip_copy.
  rewrite rmatch_operand_then.
  destruct (operand r) as [r1|]; [|done]. cbn [mbind option_bind].
  rewrite (rmatch_operand_then Some r1).
  by destruct (operand r1).
Qed.

Lemma fill_match (s : str) :
  rmatch FILL_RE s Some = skip_fill <$> strip MEMORY_FILL s.
Proof.
  unfold FILL_RE. cbn [rmatch]. destruct (strip MEMORY_FILL s) as [r|]; [|done].
  cbn [fmap option_fmap option_map]. unfold skip_fill.
  rewrite (rmatch_operand_then Some r).
  by destruct (operand r).
Qed.

Lemma skip_copy_suffix (r : str) : skip_copy r `suffix_of` r.
Proof.
  unfold skip_copy. destruct (operand r) as [r1|] eqn:E1; [|done].
  destruct (operand r1) as [r2|] eqn:E2; [|done].
  apply operand_suffix in E1, E2. by etrans.
Qed.

Lemma skip_fill_suffix (r : str) : skip_fill r `suffix_of` r.
Proof.
  unfold skip_fill. destruct (operand r) as [r1|] eqn:E1; [|done].
  by apply operand_suffix.
Qed.

Lemma MEMORY_COPY_nonempty : MEMORY_COPY <> [].
Proof. done. Qed.

Lemma MEMORY_FILL_nonempty : MEMORY_FILL <> [].
Proof. done. Qed.

(** Two operands after the mnemonic are consumed by [COPY_RE]. *)
Lemma skip_copy_operands (ws1 ws2 rest : str) :
  ws1 <> [] -> spaces ws1 -> ws2 <> [] -> spaces ws2 ->
  skip_copy (ws1 ++ 48%N :: ws2 ++ 48%N :: rest) = rest.
Proof.
  intros H1 S1 H2 S2. unfold skip_copy.
  rewrite (proj2 (operand_spec _ (ws2 ++ 48%N :: rest))) by eauto.
  by rewrite (proj2 (operand_spec _ rest)) by eauto.
Qed.

(** Anything else is left to the scan. *)
Lemma skip_copy_bare (rest : str) :
  (forall ws1 ws2 rest', ws1 <> [] -> spaces ws1 -> ws2 <> [] -> spaces ws2 ->
                         rest <> ws1 ++ 48%N :: ws2 ++ 48%N :: rest') ->
  skip_copy rest = rest.
Proof.
  intros H. unfold skip_copy.
  destruct (operand rest) as [r1|] eqn:E1; [|done].
  destruct (operand r1) as [r2|] eqn:E2; [|done].
  apply operand_spec in E1 as (ws1 & ? & ? & ->).
  apply operand_spec in E2 as (ws2 & ? & ? & ->).
  by destruct (H ws1 ws2 r2).
Qed.

Lemma skip_fill_operand (ws rest : str) :
  ws <> [] -> spaces ws -> skip_fill (ws ++ 48%N :: rest) = rest.
Proof.
  intros H1 S1. unfold skip_fill.
  by rewrite (proj2 (operand_spec _ rest)) by eauto.
Qed.

Lemma skip_fill_bare (rest : str) :
  (forall ws rest', ws <> [] -> spaces ws -> rest <> ws ++ 48%N :: rest') ->
  skip_fill rest = rest.
Proof.
  intros H. unfold skip_fill.
  destruct (operand rest) as [r1|] eqn:E1; [|done].
  apply operand_spec in E1 as (ws1 & ? & ? & ->).
  by destruct (H ws1 r1).
Qed.

Lemma skip_copy_app (r b : str) :
  barrier b -> skip_copy (r ++ b) = skip_copy r ++ b.
Proof.
  intros Hb. unfold skip_copy. rewrite operand_app by done.
  destruct (operand r) as [r1|]; [|done]. cbn.
  rewrite operand_app by done. by destruct (operand r1).
Qed.

Lemma skip_fill_app (r b : str) :
  barrier b -> skip_fill (r ++ b) = skip_fill r ++ b.
Proof.
  intros Hb. unfold skip_fill. rewrite operand_app by done.
  by destruct (operand r).
Qed.

End Rewriter.

(** ** The rewriting step *)

Section RewriterClaims.
Import Py Sys Polyfill.

Lemma sub_copy_first (pre rest : str) :
  contains MEMORY_COPY pre = false ->
  sub_copy (pre ++ MEMORY_COPY ++ rest)
  = pre ++ CALL_MEMCPY ++ sub_copy (skip_copy rest).
Proof.
  apply (re_sub_first COPY_RE MEMORY_COPY CALL_MEMCPY skip_copy
           copy_match skip_copy_suffix MEMORY_COPY_nonempty eq_refl).
Qed.

Lemma sub_fill_first (pre rest : str) :
  contains MEMORY_FILL pre = false ->
  sub_fill (pre ++ MEMORY_FILL ++ rest)
  = pre ++ CALL_MEMSET ++ sub_fill (skip_fill rest).
Proof.
  apply (re_sub_first FILL_RE MEMORY_FILL CALL_MEMSET skip_fill
           fill_match skip_fill_suffix MEMORY_FILL_nonempty eq_refl).
Qed.

Lemma sub_copy_absent (s : str) :
  contains MEMORY_COPY s = false -> sub_copy s = s.
Proof.
  apply (re_sub_absent COPY_RE MEMORY_COPY CALL_MEMCPY skip_copy
           copy_match skip_copy_suffix MEMORY_COPY_nonempty).
Qed.

Lemma sub_fill_absent (s : str) :
  contains MEMORY_FILL s = false -> sub_fill s = s.
Proof.
  apply (re_sub_absent FILL_RE MEMORY_FILL CALL_MEMSET skip_fill
           fill_match skip_fill_suffix MEMORY_FILL_nonempty).
Qed.

Lemma sub_copy_clean (s : str) : contains MEMORY_COPY (sub_copy s) = false.
Proof.
  apply (re_sub_none_left COPY_RE MEMORY_COPY CALL_MEMCPY skip_copy
           copy_match skip_copy_suffix MEMORY_COPY_nonempty eq_refl);
    reflexivity.
Qed.

Lemma sub_fill_clean (s : str) : contains MEMORY_FILL (sub_fill s) = false.
Proof.
  apply (re_sub_none_left FILL_RE MEMORY_FILL CALL_MEMSET skip_fill
           fill_match skip_fill_suffix MEMORY_FILL_nonempty eq_refl);
    reflexivity.
Qed.

(** Neither substitution brings in the other mnemonic. *)
Lemma sub_fill_keeps_copy_out (s : str) :
  contains MEMORY_COPY s = false -> contains MEMORY_COPY (sub_fill s) = false.
Proof.
  intros H. apply not_true_is_false. intros Hc.
  apply (re_sub_no_new FILL_RE MEMORY_FILL CALL_MEMSET skip_fill
           fill_match skip_fill_suffix MEMORY_FILL_nonempty
           MEMORY_COPY s eq_refl eq_refl) in Hc.
  congruence.
Qed.

Lemma sub_copy_keeps_fill_out (s : str) :
  contains MEMORY_FILL s = false -> contains MEMORY_FILL (sub_copy s) = false.
Proof.
  intros H. apply not_true_is_false. intros Hc.
  apply (re_sub_no_new COPY_RE MEMORY_COPY CALL_MEMCPY skip_copy
           copy_match skip_copy_suffix MEMORY_COPY_nonempty
           MEMORY_FILL s eq_refl eq_refl) in Hc.
  congruence.
Qed.

Lemma spaces_not_m (ws : str) (w : N) :
  is_space w = false -> spaces ws -> Forall (fun c => Some w <> Some c) ws.
Proof.
  intros Hw Hws. eapply Forall_impl; [exact Hws|].
  intros c Hc [= ->]. cbv beta in Hc. congruence.
Qed.

(** Whitespace and an operand are copied by either scan. *)
Lemma sub_copy_operand (ws rest : str) :
  spaces ws -> sub_copy (ws ++ 48%N :: rest) = ws ++ 48%N :: sub_copy rest.
Proof.
  intros Hws.
  pose proof (re_sub_others COPY_RE MEMORY_COPY CALL_MEMCPY skip_copy
                copy_match skip_copy_suffix MEMORY_COPY_nonempty) as H.
  rewrite H by (by apply spaces_not_m). reflexivity.
Qed.

Lemma sub_fill_operand (ws rest : str) :
  spaces ws -> sub_fill (ws ++ 48%N :: rest) = ws ++ 48%N :: sub_fill rest.
Proof.
  intros Hws.
  pose proof (re_sub_others FILL_RE MEMORY_FILL CALL_MEMSET skip_fill
                fill_match skip_fill_suffix MEMORY_FILL_nonempty) as H.
  rewrite H by (by apply spaces_not_m). reflexivity.
Qed.

(** C2.  The rewriting step replaces every occurrence of [memory.copy],
    bare or followed by two operands [0], by [call $memcpy], and every
    occurrence of [memory.fill], bare or followed by one operand [0], by
    [call $memset]; the operands are part of what is replaced.  Each
    substitution is applied only when its mnemonic was detected, and in
    the result no occurrence of a replaced mnemonic is left.  The
    occurrences are handled from left to right: the equations give the
    result up to and including the first occurrence, and the scan of what
    follows it. *)
Theorem rewriter_replaces_every_occurrence :
  (* memory.copy followed by two operands 0 *)
  (forall pre ws1 ws2 rest : str,
      contains MEMORY_COPY pre = false ->
      ws1 <> [] -> spaces ws1 -> ws2 <> [] -> spaces ws2 ->
      sub_copy (pre ++ MEMORY_COPY ++ ws1 ++ 48%N :: ws2 ++ 48%N :: rest)
      = pre ++ CALL_MEMCPY ++ sub_copy rest)
  (* memory.copy not followed by two operands 0 *)
  /\ (forall pre rest : str,
         contains MEMORY_COPY pre = false ->
         (forall ws1 ws2 rest',
             ws1 <> [] -> spaces ws1 -> ws2 <> [] -> spaces ws2 ->
             rest <> ws1 ++ 48%N :: ws2 ++ 48%N :: rest') ->
         sub_copy (pre ++ MEMORY_COPY ++ rest)
         = pre ++ CALL_MEMCPY ++ sub_copy rest)
  (* no memory.copy at all *)
  /\ (forall s : str, contains MEMORY_COPY s = false -> sub_copy s = s)
  (* memory.fill followed by one operand 0 *)
  /\ (forall pre ws rest : str,
         contains MEMORY_FILL pre = false ->
         ws <> [] -> spaces ws ->
         sub_fill (pre ++ MEMORY_FILL ++ ws ++ 48%N :: rest)
         = pre ++ CALL_MEMSET ++ sub_fill rest)
  (* memory.fill not followed by an operand 0 *)
  /\ (forall pre rest : str,
         contains MEMORY_FILL pre = false ->
         (forall ws rest', ws <> [] -> spaces ws ->
                           rest <> ws ++ 48%N :: rest') ->
         sub_fill (pre ++ MEMORY_FILL ++ rest)
         = pre ++ CALL_MEMSET ++ sub_fill rest)
  (* no memory.fill at all *)
  /\ (forall s : str, contains MEMORY_FILL s = false -> sub_fill s = s)
  (* only the detected mnemonics are rewritten *)
  /\ (forall buf : str,
         rewrite_calls true true buf = sub_fill (sub_copy buf)
         /\ rewrite_calls true false buf = sub_copy buf
         /\ rewrite_calls false true buf = sub_fill buf
         /\ rewrite_calls false false buf = buf)
  (* nothing is left of a replaced mnemonic *)
  /\ (forall (has_copy has_fill : bool) (buf : str),
         (has_copy = true ->
          contains MEMORY_COPY (rewrite_calls has_copy has_fill buf) = false)
         /\ (has_fill = true ->
             contains MEMORY_FILL (rewrite_calls has_copy has_fill buf)
             = false)).
Proof.
  repeat split.
  - intros pre ws1 ws2 rest Hpre H1 S1 H2 S2.
    by rewrite sub_copy_first, skip_copy_operands.
  - intros pre rest Hpre Hrest.
    by rewrite sub_copy_first, skip_copy_bare.
  - apply sub_copy_absent.
  - intros pre ws rest Hpre H1 S1.
    by rewrite sub_fill_first, skip_fill_operand.
  - intros pre rest Hpre Hrest.
    by rewrite sub_fill_first, skip_fill_bare.
  - apply sub_fill_absent.
  - intros ->. unfold rewrite_calls. destruct has_fill.
    + apply sub_fill_keeps_copy_out, sub_copy_clean.
    + apply sub_copy_clean.
  - intros ->. unfold rewrite_calls. destruct has_copy; apply sub_fill_clean.
Qed.

(** Both forms of each instruction in one buffer. *)
Lemma rewriter_replaces_every_occurrence_witness :
  sub_copy (py "(memory.copy 0 0)") = py "(call $memcpy)"
  /\ sub_copy (py "(memory.copy)") = py "(call $memcpy)"
  /\ sub_fill (py "(memory.fill 0)") = py "(call $memset)"
  /\ sub_fill (py "(memory.fill)") = py "(call $memset)"
  /\ contains MEMORY_COPY
       (rewrite_calls true true (py "memory.copy memory.fill 0 memory.copy"))
     = false.
Proof.
  pose proof rewriter_replaces_every_occurrence
    as (Hc2 & Hc0 & _ & Hf1 & Hf0 & _ & _ & Hclean).
  split; [|split; [|split; [|split]]].
  - apply (Hc2 (py "(") [32%N] [32%N] (py ")")); try done;
      by repeat constructor.
  - apply (Hc0 (py "(") (py ")")); [done|].
    intros [|c ws1] ws2 rest' H1 S1 H2 S2; [done|].
    inversion S1; subst. intros [= <-]. done.
  - apply (Hf1 (py "(") [32%N] (py ")")); try done; by repeat constructor.
  - apply (Hf0 (py "(") (py ")")); [done|].
    intros [|c ws] rest' H1 S1; [done|].
    inversion S1; subst. intros [= <-]. done.
  - by apply (Hclean true true).
Defined.

(** C9.  The optional groups cover only two operands for the copy and one
    for the fill.  After [memory.copy] followed by a single operand [0]
    the bare mnemonic alone is replaced and the operand stays behind the
    call; after [memory.fill] followed by two operands [0] the first one
    is consumed and the second stays behind the call. *)
Theorem rewriter_leaves_extra_operand :
  (forall pre ws rest : str,
      contains MEMORY_COPY pre = false ->
      ws <> [] -> spaces ws ->
      (forall ws2 rest', ws2 <> [] -> spaces ws2 ->
                         rest <> ws2 ++ 48%N :: rest') ->
      sub_copy (pre ++ MEMORY_COPY ++ ws ++ 48%N :: rest)
      = pre ++ CALL_MEMCPY ++ ws ++ 48%N :: sub_copy rest)
  /\ (forall pre ws1 ws2 rest : str,
         contains MEMORY_FILL pre = false ->
         ws1 <> [] -> spaces ws1 -> ws2 <> [] -> spaces ws2 ->
         sub_fill (pre ++ MEMORY_FILL ++ ws1 ++ 48%N :: ws2 ++ 48%N :: rest)
         = pre ++ CALL_MEMSET ++ ws2 ++ 48%N :: sub_fill rest).
Proof.
  split.
  - intros pre ws rest Hpre H1 S1 Hrest.
    rewrite sub_copy_first by done.
    assert (skip_copy (ws ++ 48%N :: rest) = ws ++ 48%N :: rest) as ->.
    { unfold skip_copy.
      rewrite (proj2 (operand_spec (ws ++ 48%N :: rest) rest)) by eauto.
      destruct (operand rest) as [r2|] eqn:E; [|done].
      apply operand_spec in E as (ws2 & ? & ? & ->).
      by destruct (Hrest ws2 r2). }
    by rewrite sub_copy_operand.
  - intros pre ws1 ws2 rest Hpre H1 S1 H2 S2.
    rewrite sub_fill_first by done.
    rewrite skip_fill_operand by done.
    by rewrite sub_fill_operand.
Qed.

(** [memory.copy 0] and [memory.fill 0 0]. *)
Lemma rewriter_leaves_extra_operand_witness :
  sub_copy (py "(memory.copy 0)") = py "(call $memcpy 0)"
  /\ sub_fill (py "(memory.fill 0 0)") = py "(call $memset 0)".
Proof.
  pose proof rewriter_leaves_extra_operand as [Hc Hf].
  split.
  - apply (Hc (py "(") [32%N] (py ")")); try done; [by repeat constructor|].
    intros [|c ws2] rest' H2 S2; [done|].
    inversion S2; subst. intros [= <-]. done.
  - apply (Hf (py "(") [32%N] [32%N] (py ")")); try done;
      by repeat constructor.
Defined.

End RewriterClaims.

(** ** The injection step *)

Section InjectorClaims.
Import Py Sys Polyfill.

Lemma contains_RPAREN (s : str) : contains RPAREN s = true <-> 41%N ∈ s.
Proof. apply contains_char. Qed.

Lemma not_contains_RPAREN (s : str) : contains RPAREN s = false <-> 41%N ∉ s.
Proof. rewrite <- contains_RPAREN. by destruct (contains RPAREN s). Qed.

Lemma inject_no_paren (has_copy has_fill : bool) (content : str) :
  contains RPAREN content = false ->
  inject has_copy has_fill content = inr (PyException (py "Invalid WAT file")).
Proof.
  intros H%not_contains_RPAREN. unfold inject, RPAREN.
  by rewrite rfind_absent.
Qed.

Lemma inject_last_paren (has_copy has_fill : bool) (pre post : str) :
  contains RPAREN post = false ->
  inject has_copy has_fill (pre ++ RPAREN ++ post)
  = inl (pre ++ injected_code has_copy has_fill ++ RPAREN ++ post).
Proof.
  intros H%not_contains_RPAREN. unfold inject, RPAREN. cbn [app].
  rewrite rfind_last by done.
  destruct (Z.eqb_spec (Z.of_nat (length pre)) (-1)); [lia|].
  by rewrite slice_to_app, slice_from_app.
Qed.

(** C5.  On a buffer with a closing parenthesis, the injection step
    returns the buffer with the texts of the functions for the detected
    instructions inserted immediately before the last [")"]: what stands
    before and after the insertion point is unchanged. *)
Theorem injector_inserts_before_last_paren (content : str) :
  contains RPAREN content = true ->
  fst (detect content) || snd (detect content) = true ->
  exists pre post : str,
    content = pre ++ RPAREN ++ post
    /\ contains RPAREN post = false
    /\ inject (fst (detect content)) (snd (detect content)) content
       = inl (pre
              ++ injected_code (fst (detect content)) (snd (detect content))
              ++ RPAREN ++ post)
    /\ injected_code (fst (detect content)) (snd (detect content))
       = (if fst (detect content) then memcpy_func else [])
         ++ (if snd (detect content) then memset_func else []).
Proof.
  intros Hparen _.
  apply contains_RPAREN, split_last in Hparen as (pre & post & -> & Hpost).
  apply not_contains_RPAREN in Hpost.
  exists pre, post. split; [done|]. split; [done|]. split.
  - by apply (inject_last_paren _ _ pre post).
  - unfold injected_code. by destruct (fst _), (snd _).
Qed.

(** A module with two closing parentheses and a copy instruction. *)
Lemma injector_inserts_before_last_paren_witness :
  exists pre post : str,
    py "(module (memory.copy))" = pre ++ RPAREN ++ post
    /\ contains RPAREN post = false
    /\ inject true false (py "(module (memory.copy))")
       = inl (pre ++ injected_code true false ++ RPAREN ++ post)
    /\ injected_code true false = memcpy_func ++ [].
Proof.
  apply (injector_inserts_before_last_paren (py "(module (memory.copy))"));
    reflexivity.
Defined.

Example inject_example :
  inject true false (py "(module (memory.copy))")
  = inl (py "(module (memory.copy)" ++ memcpy_func ++ py ")").
Proof. vm_compute. reflexivity. Qed.

(** ** Injection followed by rewriting *)

Lemma func_barrier (f x : str) : barrier (10%N :: 32%N :: 32%N :: 40%N :: f ++ x).
Proof.
  exists [10%N; 32%N; 32%N], 40%N, (f ++ x). split; [done|].
  split; [by repeat constructor|done].
Qed.

Lemma sub_copy_app_func (a f x : str) :
  sub_copy (a ++ 10%N :: 32%N :: 32%N :: 40%N :: f ++ x)
  = sub_copy a ++ sub_copy (10%N :: 32%N :: 32%N :: 40%N :: f ++ x).
Proof.
  apply (re_sub_app COPY_RE MEMORY_COPY CALL_MEMCPY skip_copy
           copy_match skip_copy_suffix MEMORY_COPY_nonempty).
  - intros y. apply strip_app_fresh; [|done].
    intros h [= <-] Hin. unfold MEMORY_COPY in Hin.
    repeat (apply elem_of_cons in Hin as [?|Hin]; [done|]).
    by apply elem_of_nil in Hin.
  - intros r. apply skip_copy_app, func_barrier.
Qed.

Lemma sub_fill_app_func (a f x : str) :
  sub_fill (a ++ 10%N :: 32%N :: 32%N :: 40%N :: f ++ x)
  = sub_fill a ++ sub_fill (10%N :: 32%N :: 32%N :: 40%N :: f ++ x).
Proof.
  apply (re_sub_app FILL_RE MEMORY_FILL CALL_MEMSET skip_fill
           fill_match skip_fill_suffix MEMORY_FILL_nonempty).
  - intros y. apply strip_app_fresh; [|done].
    intros h [= <-] Hin. unfold MEMORY_FILL in Hin.
    repeat (apply elem_of_cons in Hin as [?|Hin]; [done|]).
    by apply elem_of_nil in Hin.
  - intros r. apply skip_fill_app, func_barrier.
Qed.

Lemma memcpy_func_head :
  memcpy_func = 10%N :: 32%N :: 32%N :: 40%N :: drop 4 memcpy_func.
Proof. reflexivity. Qed.

Lemma memset_func_head :
  memset_func = 10%N :: 32%N :: 32%N :: 40%N :: drop 4 memset_func.
Proof. reflexivity. Qed.

Lemma sub_copy_inert (f y : str) :
  clash f MEMORY_COPY = true -> sub_copy (f ++ y) = f ++ sub_copy y.
Proof.
  apply (re_sub_inert COPY_RE MEMORY_COPY CALL_MEMCPY skip_copy
           copy_match skip_copy_suffix MEMORY_COPY_nonempty).
Qed.

Lemma sub_fill_inert (f y : str) :
  clash f MEMORY_FILL = true -> sub_fill (f ++ y) = f ++ sub_fill y.
Proof.
  apply (re_sub_inert FILL_RE MEMORY_FILL CALL_MEMSET skip_fill
           fill_match skip_fill_suffix MEMORY_FILL_nonempty).
Qed.

(** The scans go around an injected function. *)
Lemma sub_copy_around (a f y : str) :
  f = 10%N :: 32%N :: 32%N :: 40%N :: drop 4 f ->
  clash f MEMORY_COPY = true ->
  sub_copy (a ++ f ++ y) = sub_copy a ++ f ++ sub_copy y.
Proof.
  intros Hf Hclash. rewrite Hf at 1. cbn [app].
  rewrite sub_copy_app_func. f_equal.
  change (10%N :: 32%N :: 32%N :: 40%N :: drop 4 f ++ y)
    with ((10%N :: 32%N :: 32%N :: 40%N :: drop 4 f) ++ y).
  rewrite <- Hf. by apply sub_copy_inert.
Qed.

Lemma sub_fill_around (a f y : str) :
  f = 10%N :: 32%N :: 32%N :: 40%N :: drop 4 f ->
  clash f MEMORY_FILL = true ->
  sub_fill (a ++ f ++ y) = sub_fill a ++ f ++ sub_fill y.
Proof.
  intros Hf Hclash. rewrite Hf at 1. cbn [app].
  rewrite sub_fill_app_func. f_equal.
  change (10%N :: 32%N :: 32%N :: 40%N :: drop 4 f ++ y)
    with ((10%N :: 32%N :: 32%N :: 40%N :: drop 4 f) ++ y).
  rewrite <- Hf. by apply sub_fill_inert.
Qed.

(** Rewriting after injection is injection between the rewritten halves:
    the injected text is not touched, and no match straddles it. *)
Lemma rewrite_calls_around (has_copy has_fill : bool) (pre post : str) :
  has_copy || has_fill = true ->
  rewrite_calls has_copy has_fill
    (pre ++ injected_code has_copy has_fill ++ RPAREN ++ post)
  = rewrite_calls has_copy has_fill pre
    ++ injected_code has_copy has_fill
    ++ RPAREN ++ rewrite_calls has_copy has_fill post.
Proof.
  intros H. unfold rewrite_calls, injected_code.
  destruct has_copy, has_fill; try done; cbn [app].
  - rewrite <- app_assoc.
    rewrite (sub_copy_around pre memcpy_func) by reflexivity.
    rewrite (sub_copy_inert memset_func) by reflexivity.
    rewrite (sub_fill_around (sub_copy pre) memcpy_func) by reflexivity.
    rewrite (sub_fill_inert memset_func) by reflexivity.
    rewrite <- app_assoc. reflexivity.
  - rewrite (sub_copy_around pre memcpy_func) by reflexivity.
    reflexivity.
  - rewrite (sub_fill_around pre memset_func) by reflexivity.
    reflexivity.
Qed.

End InjectorClaims.

(** ** The whole pass, on the world *)

Section PassClaims.
Import Py Sys Polyfill.

Lemma polyfill_wat_noop (wat_path output_path : str) (w : world)
      (content : str) :
  files w !! wat_path = Some content ->
  detect content = (false, false) ->
  polyfill_wat wat_path output_path w
  = (inl tt,
     World (<[output_path := content]> (files w))
           (trace w ++ [EvRead wat_path;
                        EvPrint (py "No bulk memory operations found.");
                        EvWrite output_path content])).
Proof.
  intros Hfile Hdet.
  unfold polyfill_wat, mbind, M_bind, bind, read_file.
  rewrite Hfile, Hdet. cbn [negb andb].
  unfold print, emit, write_file. cbn [files trace].
  by rewrite <- !app_assoc.
Qed.

Lemma polyfill_wat_found (wat_path output_path : str) (w : world)
      (content : str) (has_copy has_fill : bool) :
  files w !! wat_path = Some content ->
  detect content = (has_copy, has_fill) ->
  has_copy || has_fill = true ->
  polyfill_wat wat_path output_path w
  = match inject has_copy has_fill content with
    | inr e =>
        (inr e,
         World (files w)
               (trace w ++ [EvRead wat_path;
                            EvPrint (py "Found bulk memory ops: Copy="
                                     ++ str_of_bool has_copy
                                     ++ py ", Fill="
                                     ++ str_of_bool has_fill)]))
    | inl new_content =>
        (inl tt,
         World (<[output_path := rewrite_calls has_copy has_fill new_content]>
                  (files w))
               (trace w ++ [EvRead wat_path;
                            EvPrint (py "Found bulk memory ops: Copy="
                                     ++ str_of_bool has_copy
                                     ++ py ", Fill="
                                     ++ str_of_bool has_fill);
                            EvWrite output_path
                              (rewrite_calls has_copy has_fill new_content)]))
    end.
Proof.
  intros Hfile Hdet Hany.
  unfold polyfill_wat, mbind, M_bind, bind, read_file.
  rewrite Hfile, Hdet.
  replace (negb has_copy && negb has_fill) with false
    by (by destruct has_copy, has_fill).
  unfold print, emit, write_file, raise. cbn [files trace].
  destruct (inject has_copy has_fill content); cbn [files trace];
    by rewrite <- !app_assoc.
Qed.

(** C4.  When the input contains neither [memory.copy] nor [memory.fill],
    the text written to the output is the input text itself: nothing is
    injected and nothing is rewritten. *)
Theorem noop_output_is_input (wat_path output_path : str) (w : world)
      (content : str) :
  files w !! wat_path = Some content ->
  contains MEMORY_COPY content = false ->
  contains MEMORY_FILL content = false ->
  polyfill_wat wat_path output_path w
  = (inl tt,
     World (<[output_path := content]> (files w))
           (trace w ++ [EvRead wat_path;
                        EvPrint (py "No bulk memory operations found.");
                        EvWrite output_path content]))
  /\ files (snd (polyfill_wat wat_path output_path w)) !! output_path
     = Some content.
Proof.
  intros Hfile Hc Hf.
  assert (Hdet : detect content = (false, false))
    by (unfold detect; by rewrite Hc, Hf).
  rewrite (polyfill_wat_noop _ _ _ _ Hfile Hdet). split; [done|].
  cbn [snd files]. apply lookup_insert_eq.
Qed.

Lemma noop_output_is_input_witness :
  polyfill_wat (py "in.wat") (py "out.wat")
    (World {[ py "in.wat" := py "(module (func))" ]} [])
  = (inl tt,
     World (<[py "out.wat" := py "(module (func))"]>
              {[ py "in.wat" := py "(module (func))" ]})
           ([] ++ [EvRead (py "in.wat");
                   EvPrint (py "No bulk memory operations found.");
                   EvWrite (py "out.wat") (py "(module (func))")]))
  /\ files (snd (polyfill_wat (py "in.wat") (py "out.wat")
                   (World {[ py "in.wat" := py "(module (func))" ]} [])))
       !! py "out.wat"
     = Some (py "(module (func))").
Proof.
  exact (noop_output_is_input (py "in.wat") (py "out.wat")
           (World {[ py "in.wat" := py "(module (func))" ]} [])
           (py "(module (func))")
           (lookup_singleton_eq _ _) eq_refl eq_refl).
Defined.

(** C3, as the code has it.  An input without [")"] makes the pass abort
    with the structural error, before anything is written, when at least
    one of the two instructions is detected in it.  When neither is
    detected the pass does not look for [")"]: it writes the input
    unchanged and returns normally. *)
Theorem missing_paren_aborts_when_detected (wat_path output_path : str)
      (w : world) (content : str) :
  files w !! wat_path = Some content ->
  contains RPAREN content = false ->
  (contains MEMORY_COPY content || contains MEMORY_FILL content = true ->
   polyfill_wat wat_path output_path w
   = (inr (PyException (py "Invalid WAT file")),
      World (files w)
            (trace w ++ [EvRead wat_path;
                         EvPrint (py "Found bulk memory ops: Copy="
                                  ++ str_of_bool
                                       (contains MEMORY_COPY content)
                                  ++ py ", Fill="
                                  ++ str_of_bool
                                       (contains MEMORY_FILL content))])))
  /\ (contains MEMORY_COPY content || contains MEMORY_FILL content = false ->
      polyfill_wat wat_path output_path w
      = (inl tt,
         World (<[output_path := content]> (files w))
               (trace w ++ [EvRead wat_path;
                            EvPrint (py "No bulk memory operations found.");
                            EvWrite output_path content]))).
Proof.
  intros Hfile Hparen. split; intros Hdet.
  - rewrite (polyfill_wat_found _ _ _ _ _ _ Hfile eq_refl Hdet).
    by rewrite inject_no_paren.
  - apply orb_false_iff in Hdet as [Hc Hf].
    apply polyfill_wat_noop; [done|]. unfold detect. by rewrite Hc, Hf.
Qed.

Lemma missing_paren_aborts_when_detected_witness :
  polyfill_wat (py "in.wat") (py "out.wat")
    (World {[ py "in.wat" := py "(module memory.fill" ]} [])
  = (inr (PyException (py "Invalid WAT file")),
     World {[ py "in.wat" := py "(module memory.fill" ]}
           [EvRead (py "in.wat");
            EvPrint (py "Found bulk memory ops: Copy=False, Fill=True")]).
Proof.
  exact (proj1 (missing_paren_aborts_when_detected
                  (py "in.wat") (py "out.wat")
                  (World {[ py "in.wat" := py "(module memory.fill" ]} [])
                  (py "(module memory.fill")
                  (lookup_singleton_eq _ _) eq_refl) eq_refl).
Defined.

(** Not every input without [")"] aborts: this one has no [")"] and no
    instruction to replace, and the pass returns normally after writing
    the output file. *)
Lemma missing_paren_counterexample :
  contains RPAREN (py "(module") = false
  /\ fst (polyfill_wat (py "in.wat") (py "out.wat")
            (World {[ py "in.wat" := py "(module" ]} []))
     = inl tt
  /\ files (snd (polyfill_wat (py "in.wat") (py "out.wat")
                   (World {[ py "in.wat" := py "(module" ]} [])))
       !! py "out.wat"
     = Some (py "(module").
Proof.
  split; [reflexivity|].
  rewrite (polyfill_wat_noop (py "in.wat") (py "out.wat") _ (py "(module")
             (lookup_singleton_eq _ _) eq_refl).
  split; [reflexivity|]. cbn [snd files]. apply lookup_insert_eq.
Qed.

(** C8.  With an argument list that is not the script name and two paths,
    the script prints the usage line and exits with status 1; it opens no
    file. *)
Theorem usage_error_exits (argv : list str) (w : world) :
  length argv <> 3%nat ->
  main argv w
  = (inr (SystemExit 1),
     World (files w)
           (trace w ++ [EvPrint (py "Usage: python3 polyfill_wat.py <input.wat> <output.wat>")]))
  /\ exit_status (fst (main argv w)) <> 0.
Proof.
  intros Hlen.
  assert (main argv w
          = (inr (SystemExit 1),
             World (files w)
                   (trace w ++ [EvPrint (py "Usage: python3 polyfill_wat.py <input.wat> <output.wat>")])))
    as ->.
  { unfold main.
    destruct (Nat.eqb_spec (length argv) 3); [done|]. reflexivity. }
  split; [reflexivity|]. cbn [fst exit_status]. lia.
Qed.

Lemma usage_error_exits_witness :
  main [py "polyfill_wat.py"; py "in.wat"]
       (World {[ py "in.wat" := py "(module)" ]} [])
  = (inr (SystemExit 1),
     World {[ py "in.wat" := py "(module)" ]}
           ([] ++ [EvPrint (py "Usage: python3 polyfill_wat.py <input.wat> <output.wat>")]))
  /\ exit_status
       (fst (main [py "polyfill_wat.py"; py "in.wat"]
                  (World {[ py "in.wat" := py "(module)" ]} []))) <> 0.
Proof.
  exact (usage_error_exits [py "polyfill_wat.py"; py "in.wat"]
           (World {[ py "in.wat" := py "(module)" ]} [])
           ltac:(cbn; lia)).
Defined.

(** With exactly two paths the pass is run on them. *)
Lemma main_runs_pass (prog wat_path output_path : str) (w : world) :
  main [prog; wat_path; output_path] w = polyfill_wat wat_path output_path w.
Proof. reflexivity. Qed.

(** C7, as the code has it.  For an input that has a [")"] and in which
    at least one instruction is detected, the pass writes the rewritten
    text before the last [")"], then the text of [$memcpy] when
    [memory.copy] is detected, then the text of [$memset] when
    [memory.fill] is detected, both untouched by the rewriting, then that
    parenthesis and the rewritten text after it.  With both detected the
    text of [$memcpy] so precedes the text of [$memset]; with one
    detected only the function of that instruction is inserted.  For an
    input without [")"] nothing is injected: the pass stops with the
    structural error before it writes. *)
Theorem functions_injected_in_order (wat_path output_path : str)
      (w : world) (content : str) (has_copy has_fill : bool) :
  files w !! wat_path = Some content ->
  detect content = (has_copy, has_fill) ->
  has_copy || has_fill = true ->
  (contains RPAREN content = true ->
   exists pre post output : str,
     content = pre ++ RPAREN ++ post
     /\ contains RPAREN post = false
     /\ output
        = rewrite_calls has_copy has_fill pre
          ++ (if has_copy then memcpy_func else [])
          ++ (if has_fill then memset_func else [])
          ++ RPAREN ++ rewrite_calls has_copy has_fill post
     /\ polyfill_wat wat_path output_path w
        = (inl tt,
           World (<[output_path := output]> (files w))
                 (trace w
                  ++ [EvRead wat_path;
                      EvPrint (py "Found bulk memory ops: Copy="
                               ++ str_of_bool has_copy
                               ++ py ", Fill="
                               ++ str_of_bool has_fill);
                      EvWrite output_path output])))
  /\ (contains RPAREN content = false ->
      polyfill_wat wat_path output_path w
      = (inr (PyException (py "Invalid WAT file")),
         World (files w)
               (trace w
                ++ [EvRead wat_path;
                    EvPrint (py "Found bulk memory ops: Copy="
                             ++ str_of_bool has_copy
                             ++ py ", Fill="
                             ++ str_of_bool has_fill)]))).
Proof.
  intros Hfile Hdet Hany. split; intros Hparen.
  - apply contains_RPAREN, split_last in Hparen as (pre & post & -> & Hpost).
    apply not_contains_RPAREN in Hpost.
    change (pre ++ 41%N :: post) with (pre ++ RPAREN ++ post) in *.
    exists pre, post. eexists. split; [done|]. split; [done|].
    split; [reflexivity|].
    rewrite (polyfill_wat_found _ _ _ _ _ _ Hfile Hdet Hany).
    rewrite (inject_last_paren has_copy has_fill pre post Hpost).
    rewrite rewrite_calls_around by done.
    assert (injected_code has_copy has_fill
            = (if has_copy then memcpy_func else [])
              ++ (if has_fill then memset_func else [])) as ->.
    { by destruct has_copy, has_fill. }
    by rewrite <- (app_assoc (if has_copy then memcpy_func else [])).
  - rewrite (polyfill_wat_found _ _ _ _ _ _ Hfile Hdet Hany).
    by rewrite inject_no_paren.
Qed.

(** A module using both instructions. *)
Lemma functions_injected_in_order_witness :
  exists pre post output : str,
    py "(module memory.copy 0 0 memory.fill 0)" = pre ++ RPAREN ++ post
    /\ contains RPAREN post = false
    /\ output
       = rewrite_calls true true pre
         ++ memcpy_func ++ memset_func
         ++ RPAREN ++ rewrite_calls true true post
    /\ polyfill_wat (py "in.wat") (py "out.wat")
         (World {[ py "in.wat" := py "(module memory.copy 0 0 memory.fill 0)" ]}
                [])
       = (inl tt,
          World (<[py "out.wat" := output]>
                   {[ py "in.wat"
                      := py "(module memory.copy 0 0 memory.fill 0)" ]})
                ([] ++ [EvRead (py "in.wat");
                        EvPrint (py "Found bulk memory ops: Copy="
                                 ++ str_of_bool true
                                 ++ py ", Fill="
                                 ++ str_of_bool true);
                        EvWrite (py "out.wat") output])).
Proof.
  exact (proj1 (functions_injected_in_order (py "in.wat") (py "out.wat")
                  (World {[ py "in.wat"
                            := py "(module memory.copy 0 0 memory.fill 0)" ]}
                         [])
                  (py "(module memory.copy 0 0 memory.fill 0)") true true
                  (lookup_singleton_eq _ _) eq_refl eq_refl)
           eq_refl).
Defined.

(** Not every input in which both instructions are detected has the
    functions injected: in this one both are detected, and the pass stops
    with the structural error; no output is written. *)
Lemma functions_injected_counterexample :
  detect (py "memory.copy memory.fill") = (true, true)
  /\ fst (polyfill_wat (py "in.wat") (py "out.wat")
            (World {[ py "in.wat" := py "memory.copy memory.fill" ]} []))
     = inr (PyException (py "Invalid WAT file"))
  /\ files (snd (polyfill_wat (py "in.wat") (py "out.wat")
                   (World {[ py "in.wat" := py "memory.copy memory.fill" ]}
                          [])))
       !! py "out.wat"
     = None.
Proof.
  split; [reflexivity|].
  rewrite (polyfill_wat_found (py "in.wat") (py "out.wat") _
             (py "memory.copy memory.fill") true true
             (lookup_singleton_eq _ _) eq_refl eq_refl).
  rewrite inject_no_paren by reflexivity.
  split; [reflexivity|]. cbn [snd files].
  by apply lookup_singleton_ne.
Qed.

(** The same module, evaluated stage by stage. *)
Example both_functions_example :
  sum_map (rewrite_calls true true) id
    (inject true true (py "(module memory.copy 0 0 memory.fill 0)"))
  = inl (py "(module call $memcpy call $memset"
         ++ memcpy_func ++ memset_func ++ py ")").
Proof. vm_compute. reflexivity. Qed.

(** Only the function of the detected instruction is injected. *)
Example copy_only_example :
  sum_map (rewrite_calls true false) id
    (inject true false (py "(module memory.copy)"))
  = inl (py "(module call $memcpy" ++ memcpy_func ++ py ")").
Proof. vm_compute. reflexivity. Qed.

End PassClaims.

(* ===================================================================== *)
(** * The account-hash tool *)
(* ===================================================================== *)

Section AccountHashClaims.
Import Strings.Byte Py Sys AccountHash.

Lemma hex_not_space (c : N) :
  is_Some (hex_value c) -> is_ascii_space c = false.
Proof.
  intros H. destruct (is_ascii_space c) eqn:E; [|done].
  assert (Hc : (9 <= c <= 13 \/ c = 32)%N).
  { unfold is_ascii_space in E.
    apply orb_true_iff in E
      as [[H1%N.leb_le H2%N.leb_le]%andb_true_iff|H3%N.eqb_eq]; lia. }
  unfold hex_value in H.
  destruct (N.leb_spec 48 c), (N.leb_spec c 57),
    (N.leb_spec 97 c), (N.leb_spec c 102),
    (N.leb_spec 65 c), (N.leb_spec c 70);
    cbn [andb] in H; try lia; by destruct H.
Qed.

(** An even run of hexadecimal digits decodes to half as many bytes. *)
Lemma fromhex_hex_digits (n : nat) (s : str) :
  Forall (fun c => is_Some (hex_value c)) s ->
  length s = (2 * n)%nat ->
  exists bs, bytes_fromhex s = Some bs /\ length bs = n.
Proof.
  unfold bytes_fromhex. revert s. induction n as [|n IH]; intros s Hs Hlen.
  - destruct s; [|done]. by exists [].
  - destruct s as [|c1 [|c2 s]]; [done| cbn in Hlen; lia |].
    inversion Hs as [|? ? H1 Hs1]; subst.
    inversion Hs1 as [|? ? H2 Hs2]; subst.
    destruct (IH s Hs2) as (bs & Hbs & Hn); [cbn in Hlen; lia|].
    cbn [fromhex_from]. rewrite (hex_not_space c1 H1).
    destruct H1 as [top ->], H2 as [bot ->]. rewrite Hbs.
    eexists. split; [done|]. cbn. by rewrite Hn.
Qed.

Lemma get_account_hash_run (prog hex_key : str) (more : list str)
      (w : world) :
  get_account_hash (prog :: hex_key :: more) w
  = let stop (msg : str) : (unit + abort) * world :=
      (inr (SystemExit 1), World (files w) (trace w ++ [EvPrint msg])) in
    let done_with (algo_name : str) (key_bytes : list byte) :=
      (inl tt,
       World (files w)
             (trace w ++ [EvPrint
                            (py "account-hash-"
                             ++ hex_of_bytes
                                  (Blake2b.blake2b 32
                                     (encode_utf8 algo_name ++ [x00]
                                      ++ key_bytes)))])) in
    match bytes_fromhex (slice_from hex_key 2) with
    | None => stop (py "Invalid hex string")
    | Some key_bytes =>
        if bool_decide (slice_to hex_key 2 = py "01") then
          if (length key_bytes =? 32)%nat
          then done_with (py "ed25519") key_bytes
          else stop (py "Invalid Ed25519 key length: "
                     ++ str_of_nat (length key_bytes))
        else if bool_decide (slice_to hex_key 2 = py "02") then
          if (length key_bytes =? 33)%nat
          then done_with (py "secp256k1") key_bytes
          else stop (py "Invalid Secp256k1 key length: "
                     ++ str_of_nat (length key_bytes))
        else stop (py "Unknown tag " ++ slice_to hex_key 2)
    end.
Proof.
  unfold get_account_hash.
  cbn [length Nat.ltb Nat.leb nth].
  unfold mbind, M_bind, bind, ret, print, emit, sys_exit, raise.
  cbv zeta.
  destruct (bytes_fromhex (slice_from hex_key 2)) as [key_bytes|]; [|done].
  destruct (bool_decide (slice_to hex_key 2 = py "01")).
  { by destruct (length key_bytes =? 32)%nat. }
  destruct (bool_decide (slice_to hex_key 2 = py "02")).
  { by destruct (length key_bytes =? 33)%nat. }
  done.
Qed.

(** A character that is neither a hexadecimal digit nor ASCII whitespace
    makes [bytes.fromhex] fail, wherever it stands. *)
Lemma fromhex_bad_char (high : option N) (s : str) (c : N) :
  c ∈ s -> hex_value c = None -> is_ascii_space c = false ->
  fromhex_from high s = None.
Proof.
  intros Hin Hv Hs. revert high.
  induction s as [|a s IH]; intros high; [by apply elem_of_nil in Hin|].
  cbn [fromhex_from]. apply elem_of_cons in Hin as [<-|Hin].
  - rewrite Hv, Hs. by destruct high.
  - specialize (IH Hin). destruct high as [top|].
    + destruct (hex_value a); [|done]. by rewrite IH.
    + destruct (is_ascii_space a); [apply IH|].
      destruct (hex_value a); [apply IH|done].
Qed.

Lemma tagged_key_slices (tag key_hex : str) :
  length tag = 2%nat ->
  slice_to (tag ++ key_hex) 2 = tag /\ slice_from (tag ++ key_hex) 2 = key_hex.
Proof.
  intros H. change 2 with (Z.of_nat 2). rewrite <- H.
  by rewrite slice_to_app, slice_from_app.
Qed.

(** C10, as the code has it.  For the tag [01] followed by 64
    hexadecimal digits the tool prints [account-hash-] and the lowercase
    hexadecimal text of the 32-byte BLAKE2b digest of ["ed25519"], a zero
    byte and the 32 key bytes.  For the tag [02] it does the same with
    ["secp256k1"] and a key of 33 bytes.  With any other tag, a key of
    the wrong length, or a key text that [bytes.fromhex] rejects, as it
    does every text with a character that is neither a hexadecimal digit
    nor ASCII whitespace, it prints a line that does not start with
    [account-hash-] and exits with status 1.  A key text that
    [bytes.fromhex] accepts, which can hold ASCII whitespace between its
    bytes, is treated by the bytes it decodes to: 32 bytes after [01], or
    33 bytes after [02], give the account hash of these bytes. *)
Theorem account_hash_of_tagged_key :
  (forall (prog : str) (more : list str) (w : world) (key_hex : str),
      Forall (fun c => is_Some (hex_value c)) key_hex ->
      length key_hex = 64%nat ->
      exists key_bytes : list byte,
        bytes_fromhex key_hex = Some key_bytes
        /\ length key_bytes = 32%nat
        /\ get_account_hash (prog :: (py "01" ++ key_hex) :: more) w
           = (inl tt,
              World (files w)
                    (trace w
                     ++ [EvPrint
                           (py "account-hash-"
                            ++ hex_of_bytes
                                 (Blake2b.blake2b 32
                                    (encode_utf8 (py "ed25519") ++ [x00]
                                     ++ key_bytes)))])))
  /\ (forall (prog : str) (more : list str) (w : world) (key_hex : str),
         Forall (fun c => is_Some (hex_value c)) key_hex ->
         length key_hex = 66%nat ->
         exists key_bytes : list byte,
           bytes_fromhex key_hex = Some key_bytes
           /\ length key_bytes = 33%nat
           /\ get_account_hash (prog :: (py "02" ++ key_hex) :: more) w
              = (inl tt,
                 World (files w)
                       (trace w
                        ++ [EvPrint
                              (py "account-hash-"
                               ++ hex_of_bytes
                                    (Blake2b.blake2b 32
                                       (encode_utf8 (py "secp256k1")
                                        ++ [x00] ++ key_bytes)))])))
  /\ (forall (prog hex_key : str) (more : list str) (w : world),
         (slice_to hex_key 2 <> py "01" /\ slice_to hex_key 2 <> py "02")
         \/ (exists c : N,
                c ∈ slice_from hex_key 2
                /\ hex_value c = None /\ is_ascii_space c = false)
         \/ bytes_fromhex (slice_from hex_key 2) = None
         \/ (exists key_bytes,
                bytes_fromhex (slice_from hex_key 2) = Some key_bytes
                /\ slice_to hex_key 2 = py "01"
                /\ length key_bytes <> 32%nat)
         \/ (exists key_bytes,
                bytes_fromhex (slice_from hex_key 2) = Some key_bytes
                /\ slice_to hex_key 2 = py "02"
                /\ length key_bytes <> 33%nat) ->
         exists msg : str,
           get_account_hash (prog :: hex_key :: more) w
           = (inr (SystemExit 1),
              World (files w) (trace w ++ [EvPrint msg]))
           /\ startswith (py "account-hash-") msg = false
           /\ exit_status (fst (get_account_hash (prog :: hex_key :: more) w))
              = 1)
  /\ (forall (prog hex_key : str) (more : list str) (w : world)
             (key_bytes : list byte),
         bytes_fromhex (slice_from hex_key 2) = Some key_bytes ->
         slice_to hex_key 2 = py "01" /\ length key_bytes = 32%nat
         \/ slice_to hex_key 2 = py "02" /\ length key_bytes = 33%nat ->
         get_account_hash (prog :: hex_key :: more) w
         = (inl tt,
            World (files w)
                  (trace w
                   ++ [EvPrint
                         (py "account-hash-"
                          ++ hex_of_bytes
                               (Blake2b.blake2b 32
                                  (encode_utf8
                                     (if bool_decide
                                           (slice_to hex_key 2 = py "01")
                                      then py "ed25519"
                                      else py "secp256k1")
                                   ++ [x00] ++ key_bytes)))]))).
Proof.
  split; [|split; [|split]].
  - intros prog more w key_hex Hhex Hlen.
    destruct (fromhex_hex_digits 32 key_hex Hhex Hlen) as (kb & Hkb & Hn).
    exists kb. split; [done|]. split; [done|].
    rewrite get_account_hash_run. cbv zeta.
    destruct (tagged_key_slices (py "01") key_hex eq_refl) as [-> ->].
    rewrite Hkb, Hn. reflexivity.
  - intros prog more w key_hex Hhex Hlen.
    destruct (fromhex_hex_digits 33 key_hex Hhex Hlen) as (kb & Hkb & Hn).
    exists kb. split; [done|]. split; [done|].
    rewrite get_account_hash_run. cbv zeta.
    destruct (tagged_key_slices (py "02") key_hex eq_refl) as [-> ->].
    rewrite Hkb, Hn. reflexivity.
  - intros prog hex_key more w H.
    rewrite get_account_hash_run. cbv zeta.
    destruct (bytes_fromhex (slice_from hex_key 2)) as [kb|] eqn:Hkb.
    2: { eexists. split; [reflexivity|]. split; reflexivity. }
    destruct H as [[H1 H2]|[(c & Hin & Hv & Hs)
                           |[H|[(kb' & [= <-] & Htag & Hn)
                               |(kb' & [= <-] & Htag & Hn)]]]].
    + rewrite !bool_decide_eq_false_2 by done.
      eexists. split; [reflexivity|]. split; reflexivity.
    + unfold bytes_fromhex in Hkb.
      by rewrite (fromhex_bad_char None _ c Hin Hv Hs) in Hkb.
    + done.
    + rewrite Htag. rewrite bool_decide_eq_true_2 by done.
      destruct (Nat.eqb_spec (length kb) 32); [done|].
      eexists. split; [reflexivity|]. split; reflexivity.
    + rewrite Htag. rewrite bool_decide_eq_false_2 by done.
      rewrite bool_decide_eq_true_2 by done.
      destruct (Nat.eqb_spec (length kb) 33); [done|].
      eexists. split; [reflexivity|]. split; reflexivity.
  - intros prog hex_key more w kb Hkb Hcase.
    rewrite get_account_hash_run. cbv zeta. rewrite Hkb.
    destruct Hcase as [[Htag Hn]|[Htag Hn]]; rewrite Htag, Hn.
    + by rewrite bool_decide_eq_true_2 by done.
    + rewrite bool_decide_eq_false_2 by done.
      by rewrite bool_decide_eq_true_2 by done.
Qed.

(** An Ed25519 key; the digest is the one [hashlib] gives. *)
Lemma account_hash_of_tagged_key_witness :
  get_account_hash
    [py "get_account_hash.py";
     py "01aabbccddeeff00112233445566778899aabbccddeeff00112233445566778899"]
    (World ∅ [])
  = (inl tt,
     World ∅
       [EvPrint (py "account-hash-fe389c0f6ec69babd9837ee1d49a8900573552594d30b20c9c2b8310fe6b11e5")]).
Proof.
  destruct (proj1 account_hash_of_tagged_key
              (py "get_account_hash.py") [] (World ∅ [])
              (py "aabbccddeeff00112233445566778899aabbccddeeff00112233445566778899"))
    as (kb & Hkb & _ & Hrun).
  - repeat (constructor; [by eexists|]). constructor.
  - reflexivity.
  - etrans; [exact Hrun|]. vm_compute in Hkb. injection Hkb as <-.
    vm_compute. reflexivity.
Defined.

(** Not every key text with a character that is no hexadecimal digit is
    refused: here a space stands between the tag and the 64 digits of
    the key, and the tool prints the account hash of the key. *)
Lemma account_hash_counterexample :
  32%N ∈ slice_from
           (py "01 aabbccddeeff00112233445566778899aabbccddeeff00112233445566778899")
           2
  /\ hex_value 32 = None
  /\ get_account_hash
       [py "get_account_hash.py";
        py "01 aabbccddeeff00112233445566778899aabbccddeeff00112233445566778899"]
       (World ∅ [])
     = (inl tt,
        World ∅
          [EvPrint (py "account-hash-fe389c0f6ec69babd9837ee1d49a8900573552594d30b20c9c2b8310fe6b11e5")]).
Proof.
  split; [vm_compute (slice_from _ _); by left|]. split; [reflexivity|].
  vm_compute. reflexivity.
Qed.

(** A Secp256k1 key, and the refusals. *)
Example account_hash_secp256k1 :
  get_account_hash
    [py "get_account_hash.py";
     py "02aabbccddeeff00112233445566778899aabbccddeeff00112233445566778899AB"]
    (World ∅ [])
  = (inl tt,
     World ∅
       [EvPrint (py "account-hash-77a3b5e64b4b473fa895632f39c52a0564d3d089bffca709728ee7e9ad8a43f5")]).
Proof. vm_compute. reflexivity. Qed.

Example account_hash_wrong_length :
  get_account_hash [py "get_account_hash.py"; py "01aabb"] (World ∅ [])
  = (inr (SystemExit 1),
     World ∅ [EvPrint (py "Invalid Ed25519 key length: 2")]).
Proof. vm_compute. reflexivity. Qed.

Example account_hash_unknown_tag :
  get_account_hash [py "get_account_hash.py"; py "03aabb"] (World ∅ [])
  = (inr (SystemExit 1), World ∅ [EvPrint (py "Unknown tag 03")]).
Proof. vm_compute. reflexivity. Qed.

Example account_hash_not_hex :
  get_account_hash [py "get_account_hash.py"; py "01zz"] (World ∅ [])
  = (inr (SystemExit 1), World ∅ [EvPrint (py "Invalid hex string")]).
Proof. vm_compute. reflexivity. Qed.

Example account_hash_no_argument :
  get_account_hash [py "get_account_hash.py"] (World ∅ [])
  = (inr (SystemExit 1),
     World ∅
       [EvPrint (py "Usage: python3 get_account_hash.py <public_key_hex>")]).
Proof. vm_compute. reflexivity. Qed.

(** The hash itself, on the test vectors of the reference
    implementation. *)
Example blake2b_256_empty :
  hex_of_bytes (Blake2b.blake2b 32 [])
  = py "0e5751c026e543b2e8ab2eb06099daa1d1e5df47778f7787faab45cdf12fe3a8".
Proof. vm_compute. reflexivity. Qed.

Example blake2b_512_abc :
  hex_of_bytes (Blake2b.blake2b 64 (encode_utf8 (py "abc")))
  = py "ba80a53f981c4d0d6a2797b69f12f6e94c212f14685ac4b74b12bb6fdbffa2d17d87c5392aab792dc252d5de4533cc9518d38aa8dbf1925ab92386edd4009923".
Proof. vm_compute. reflexivity. Qed.

Example encode_utf8_algo_name :
  encode_utf8 (py "ed25519") = [x65; x64; x32; x35; x35; x31; x39].
Proof. reflexivity. Qed.

Example encode_utf8_multibyte :
  hex_of_bytes (encode_utf8 [233; 8364; 128512]%N) = py "c3a9e282acf09f9880".
Proof. vm_compute. reflexivity. Qed.

End AccountHashClaims.

(* ===================================================================== *)
(** * Further properties of the pass *)
(* ===================================================================== *)

Section PassProperties.
Import Py Sys Polyfill.

Lemma tails_suffix (s t : str) : t ∈ tails s -> t `suffix_of` s.
Proof.
  induction s as [|c s IH]; cbn; [by intros ?%elem_of_nil|].
  intros [->|H]%elem_of_cons; [done|].
  by apply suffix_cons_r, IH.
Qed.

Lemma contains_prefix_part (v a b : str) :
  contains v a = true -> contains v (a ++ b) = true.
Proof.
  intros (pre & post & ->)%contains_spec. apply contains_spec.
  exists pre, (post ++ b). by rewrite <- !app_assoc.
Qed.

Lemma contains_suffix_part (v a b : str) :
  contains v b = true -> contains v (a ++ b) = true.
Proof. apply contains_suffix. by exists a. Qed.

(** An occurrence of [v] in [a ++ f ++ b] lies in [a] or in [b] when [v]
    and the inserted text [f] clash both ways. *)
Lemma contains_insert (v a f b : str) :
  clash v f = true -> clash f v = true ->
  contains v (a ++ f ++ b) = true ->
  contains v a = true \/ contains v b = true.
Proof.
  intros Hvf Hfv H.
  apply contains_app_split in H as [(t & Ht & Hs)|H].
  - apply startswith_app_split in Hs as [Hs|(t' & Hne & Hv & Hs)].
    + left. eapply contains_suffix; [by apply tails_suffix|].
      by apply contains_startswith.
    + apply compat_app in Hs.
      rewrite (clash_spec v f t' Hvf) in Hs; [done|].
      rewrite Hv. by apply tails_app.
  - apply contains_app_split in H as [(t & Ht & Hs)|H]; [|by right].
    apply compat_app in Hs. rewrite compat_sym in Hs.
    by rewrite (clash_spec f v t Hfv Ht) in Hs.
Qed.

(** An occurrence of [v] in [a ++ c :: b] lies in [a] or in [b] when the
    character [c] is not one of [v]. *)
Lemma contains_across (v a : str) (c : N) (b : str) :
  c ∉ v ->
  contains v (a ++ c :: b) = true ->
  contains v a = true \/ contains v b = true.
Proof.
  intros Hc H.
  assert (Hhead : forall t x, t <> [] -> t `suffix_of` v ->
                          startswith t (c :: x) = false).
  { intros [|a0 t] x Hne [k Hk]; [done|]. cbn.
    destruct (N.eqb_spec a0 c) as [->|]; [|done].
    destruct Hc. rewrite Hk. apply elem_of_app. right. by left. }
  apply contains_app_split in H as [(t & Ht & Hs)|H].
  - apply startswith_app_split in Hs as [Hs|(t' & Hne & Hv & Hs)].
    + left. eapply contains_suffix; [by apply tails_suffix|].
      by apply contains_startswith.
    + rewrite (Hhead t' b Hne) in Hs; [done|by exists t].
  - cbn [contains] in H. apply orb_true_iff in H as [H|H]; [|by right].
    destruct v as [|v0 v]; [left; destruct a; reflexivity|].
    rewrite (Hhead (v0 :: v) b) in H; done.
Qed.

Lemma injected_code_clash (has_copy has_fill : bool) :
  has_copy || has_fill = true ->
  clash MEMORY_COPY (injected_code has_copy has_fill) = true
  /\ clash (injected_code has_copy has_fill) MEMORY_COPY = true
  /\ clash MEMORY_FILL (injected_code has_copy has_fill) = true
  /\ clash (injected_code has_copy has_fill) MEMORY_FILL = true.
Proof. destruct has_copy, has_fill; try done; by vm_compute. Qed.

Lemma RPAREN_not_in_mnemonics :
  (41%N ∉ MEMORY_COPY) /\ (41%N ∉ MEMORY_FILL).
Proof.
  split; intros Hin; unfold MEMORY_COPY, MEMORY_FILL in Hin;
    repeat (apply elem_of_cons in Hin as [?|Hin]; [done|]);
    by apply elem_of_nil in Hin.
Qed.

(** Injecting the functions before a [")"] neither creates nor removes
    an occurrence of a mnemonic. *)
Lemma detect_injected (has_copy has_fill : bool) (pre post : str) :
  detect (pre ++ injected_code has_copy has_fill ++ RPAREN ++ post)
  = detect (pre ++ RPAREN ++ post).
Proof.
  destruct (has_copy || has_fill) eqn:Hany.
  2: { by apply orb_false_iff in Hany as [-> ->]. }
  destruct (injected_code_clash has_copy has_fill Hany)
    as (C1 & C2 & F1 & F2).
  destruct RPAREN_not_in_mnemonics as [Pc Pf].
  assert (H : forall v, clash v (injected_code has_copy has_fill) = true ->
                        clash (injected_code has_copy has_fill) v = true ->
                        41%N ∉ v ->
                        contains v (pre ++ injected_code has_copy has_fill
                                    ++ RPAREN ++ post)
                        = contains v (pre ++ RPAREN ++ post)).
  { intros v Hvf Hfv Hp. apply eq_true_iff_eq. split; intros Hc.
    - apply (contains_insert v pre _ _ Hvf Hfv) in Hc as [Hc|Hc].
      + by apply contains_prefix_part.
      + by apply contains_suffix_part.
    - apply (contains_across v pre 41 post Hp) in Hc as [Hc|Hc].
      + by apply contains_prefix_part.
      + by do 3 apply contains_suffix_part. }
  unfold detect. by rewrite (H MEMORY_COPY), (H MEMORY_FILL).
Qed.

(** The text left by the rewriting step of a buffer obtained by injection
    contains neither mnemonic, when the flags are those of the original
    text. *)
Lemma rewritten_clean (has_copy has_fill : bool) (content new_content : str) :
  detect content = (has_copy, has_fill) ->
  inject has_copy has_fill content = inl new_content ->
  detect (rewrite_calls has_copy has_fill new_content) = (false, false).
Proof.
  intros Hdet Hinj.
  destruct (contains RPAREN content) eqn:Hp.
  2: { by rewrite inject_no_paren in Hinj. }
  apply contains_RPAREN, split_last in Hp as (pre & post & -> & Hpost).
  apply not_contains_RPAREN in Hpost.
  change (pre ++ 41%N :: post) with (pre ++ RPAREN ++ post) in *.
  rewrite inject_last_paren in Hinj by done.
  assert (new_content
          = pre ++ injected_code has_copy has_fill ++ RPAREN ++ post)
    as -> by congruence.
  clear Hinj.
  rewrite <- (detect_injected has_copy has_fill pre post) in Hdet.
  remember (pre ++ injected_code has_copy has_fill ++ RPAREN ++ post) as buf.
  unfold detect in Hdet. injection Hdet as Hc Hf.
  unfold detect, rewrite_calls.
  destruct has_copy, has_fill.
  - by rewrite sub_fill_keeps_copy_out, sub_fill_clean
      by apply sub_copy_clean.
  - by rewrite sub_copy_clean, (sub_copy_keeps_fill_out _ Hf).
  - by rewrite (sub_fill_keeps_copy_out _ Hc), sub_fill_clean.
  - by rewrite Hc, Hf.
Qed.


(** X1.  Injection leaves the detection result as it was: the injected
    functions contain neither mnemonic, and inserting them before a [")"]
    neither completes nor breaks an occurrence. *)
Theorem inject_keeps_detection (has_copy has_fill : bool)
      (content new_content : str) :
  inject has_copy has_fill content = inl new_content ->
  detect new_content = detect content.
Proof.
  intros Hinj.
  destruct (contains RPAREN content) eqn:Hp.
  2: { by rewrite inject_no_paren in Hinj. }
  apply contains_RPAREN, split_last in Hp as (pre & post & -> & Hpost).
  apply not_contains_RPAREN in Hpost.
  change (pre ++ 41%N :: post) with (pre ++ RPAREN ++ post) in *.
  rewrite inject_last_paren in Hinj by done.
  assert (new_content
          = pre ++ injected_code has_copy has_fill ++ RPAREN ++ post)
    as -> by congruence.
  apply detect_injected.
Qed.

Lemma inject_keeps_detection_witness :
  detect (py "(module (memory.copy)" ++ memcpy_func ++ py ")")
  = detect (py "(module (memory.copy))").
Proof.
  exact (inject_keeps_detection true false (py "(module (memory.copy))")
           (py "(module (memory.copy)" ++ memcpy_func ++ py ")") eq_refl).
Defined.

(** X2.  Rewriting twice is rewriting once: the rewriting step leaves
    nothing that it would rewrite again. *)
Theorem rewrite_calls_idempotent (has_copy has_fill : bool) (buf : str) :
  rewrite_calls has_copy has_fill (rewrite_calls has_copy has_fill buf)
  = rewrite_calls has_copy has_fill buf.
Proof.
  unfold rewrite_calls. destruct has_copy, has_fill; try done.
  - rewrite (sub_copy_absent (sub_fill (sub_copy buf))).
    + apply sub_fill_absent, sub_fill_clean.
    + apply sub_fill_keeps_copy_out, sub_copy_clean.
  - apply sub_copy_absent, sub_copy_clean.
  - apply sub_fill_absent, sub_fill_clean.
Qed.

(** A text written by the pass gives the detection result "nothing
    found". *)
Lemma pass_output_detect (wat_path output_path : str) (w w' : world) :
  polyfill_wat wat_path output_path w = (inl tt, w') ->
  exists output : str,
    files w' !! output_path = Some output
    /\ detect output = (false, false).
Proof.
  intros Hrun.
  destruct (files w !! wat_path) as [content|] eqn:Hfile.
  2: { unfold polyfill_wat, mbind, M_bind, bind, read_file in Hrun.
       by rewrite Hfile in Hrun. }
  destruct (detect content) as [hc hf] eqn:Hdet.
  destruct (hc || hf) eqn:Hany.
  - rewrite (polyfill_wat_found _ _ _ _ _ _ Hfile Hdet Hany) in Hrun.
    destruct (inject hc hf content) as [new_content|e] eqn:Hinj; [|done].
    injection Hrun as <-. eexists. split; [apply lookup_insert_eq|].
    exact (rewritten_clean hc hf content new_content Hdet Hinj).
  - apply orb_false_iff in Hany as [-> ->].
    rewrite (polyfill_wat_noop _ _ _ _ Hfile Hdet) in Hrun.
    injection Hrun as <-. exists content. by split; [apply lookup_insert_eq|].
Qed.

(** X3.  Whenever the pass returns normally, the text it has written
    contains neither [memory.copy] nor [memory.fill], the injected
    functions included. *)
Theorem pass_output_has_no_bulk_op (wat_path output_path : str)
      (w w' : world) :
  polyfill_wat wat_path output_path w = (inl tt, w') ->
  exists output : str,
    files w' !! output_path = Some output
    /\ contains MEMORY_COPY output = false
    /\ contains MEMORY_FILL output = false.
Proof.
  intros Hrun.
  destruct (pass_output_detect _ _ _ _ Hrun) as (output & Hout & Hdet).
  exists output. split; [done|].
  unfold detect in Hdet. by injection Hdet as -> ->.
Qed.

Lemma pass_output_has_no_bulk_op_witness :
  exists output : str,
    files (snd (polyfill_wat (py "in.wat") (py "out.wat")
                  (World {[ py "in.wat" := py "(memory.copy memory.fill 0)" ]}
                         [])))
      !! py "out.wat" = Some output
    /\ contains MEMORY_COPY output = false
    /\ contains MEMORY_FILL output = false.
Proof.
  apply (pass_output_has_no_bulk_op (py "in.wat") (py "out.wat")
           (World {[ py "in.wat" := py "(memory.copy memory.fill 0)" ]} [])).
  rewrite (polyfill_wat_found (py "in.wat") (py "out.wat") _
             (py "(memory.copy memory.fill 0)") true true
             (lookup_singleton_eq _ _) eq_refl eq_refl).
  reflexivity.
Defined.

(** X4.  The pass is idempotent: run on a text it has written, it finds
    nothing to do and writes that text unchanged. *)
Theorem pass_is_idempotent (wat_path output_path again_path : str)
      (w w' : world) :
  polyfill_wat wat_path output_path w = (inl tt, w') ->
  exists output : str,
    files w' !! output_path = Some output
    /\ polyfill_wat output_path again_path w'
       = (inl tt,
          World (<[again_path := output]> (files w'))
                (trace w' ++ [EvRead output_path;
                              EvPrint (py "No bulk memory operations found.");
                              EvWrite again_path output])).
Proof.
  intros Hrun.
  destruct (pass_output_detect _ _ _ _ Hrun) as (output & Hout & Hdet).
  exists output. split; [done|]. by apply polyfill_wat_noop.
Qed.

Lemma pass_is_idempotent_witness :
  exists output : str,
    files (snd (polyfill_wat (py "in.wat") (py "out.wat")
                  (World {[ py "in.wat" := py "(memory.copy memory.fill 0)" ]}
                         [])))
      !! py "out.wat" = Some output
    /\ polyfill_wat (py "out.wat") (py "out2.wat")
         (snd (polyfill_wat (py "in.wat") (py "out.wat")
                 (World {[ py "in.wat" := py "(memory.copy memory.fill 0)" ]}
                        [])))
       = (inl tt,
          World (<[py "out2.wat" := output]>
                   (files (snd (polyfill_wat (py "in.wat") (py "out.wat")
                                  (World {[ py "in.wat"
                                            := py "(memory.copy memory.fill 0)" ]}
                                         [])))))
                (trace (snd (polyfill_wat (py "in.wat") (py "out.wat")
                               (World {[ py "in.wat"
                                         := py "(memory.copy memory.fill 0)" ]}
                                      [])))
                 ++ [EvRead (py "out.wat");
                     EvPrint (py "No bulk memory operations found.");
                     EvWrite (py "out2.wat") output])).
Proof.
  apply (pass_is_idempotent (py "in.wat") (py "out.wat") (py "out2.wat")
           (World {[ py "in.wat" := py "(memory.copy memory.fill 0)" ]} [])).
  rewrite (polyfill_wat_found (py "in.wat") (py "out.wat") _
             (py "(memory.copy memory.fill 0)") true true
             (lookup_singleton_eq _ _) eq_refl eq_refl).
  reflexivity.
Defined.

(** X5.  The pass writes to no file but the output: every other file is as it
    was, and when the pass stops with an exception no file at all has
    changed. *)
Theorem pass_touches_only_output (wat_path output_path : str) (w : world) :
  (forall path : str,
      path <> output_path ->
      files (snd (polyfill_wat wat_path output_path w)) !! path
      = files w !! path)
  /\ (forall e : abort,
         fst (polyfill_wat wat_path output_path w) = inr e ->
         files (snd (polyfill_wat wat_path output_path w)) = files w).
Proof.
  destruct (files w !! wat_path) as [content|] eqn:Hfile.
  2: { unfold polyfill_wat, mbind, M_bind, bind, read_file.
       rewrite Hfile. by split. }
  destruct (detect content) as [hc hf] eqn:Hdet.
  destruct (hc || hf) eqn:Hany.
  - rewrite (polyfill_wat_found _ _ _ _ _ _ Hfile Hdet Hany).
    destruct (inject hc hf content) as [new_content|e']; cbn [fst snd files].
    + split; [|done]. intros path Hne. by apply lookup_insert_ne.
    + by split.
  - apply orb_false_iff in Hany as [-> ->].
    rewrite (polyfill_wat_noop _ _ _ _ Hfile Hdet). cbn [fst snd files].
    split; [|done]. intros path Hne. by apply lookup_insert_ne.
Qed.

Lemma pass_touches_only_output_witness :
  files (snd (polyfill_wat (py "in.wat") (py "out.wat")
                (World {[ py "in.wat" := py "(memory.copy)" ]} [])))
    !! py "in.wat"
  = Some (py "(memory.copy)").
Proof.
  rewrite (proj1 (pass_touches_only_output (py "in.wat") (py "out.wat")
                    (World {[ py "in.wat" := py "(memory.copy)" ]} []))
             (py "in.wat") ltac:(done)).
  apply lookup_singleton_eq.
Defined.

End PassProperties.

(* ===================================================================== *)
(** * The pass and the nesting of parentheses *)
(* ===================================================================== *)

Section Nesting.
Import Py Sys Polyfill.

Lemma nesting_app (d : nat) (a b : str) :
  nesting d (a ++ b) = nesting d a ≫= fun d' => nesting d' b.
Proof.
  revert d. induction a as [|c a IH]; intros d; [done|].
  cbn [app nesting]. destruct (c =? 40)%N; [apply IH|].
  destruct (c =? 41)%N; [|apply IH]. destruct d; [done|apply IH].
Qed.

Lemma nesting_plain (d : nat) (x : str) :
  Forall (fun c => c <> 40%N /\ c <> 41%N) x -> nesting d x = Some d.
Proof.
  induction 1 as [|c x [H1 H2] _ IH]; [done|]. cbn [nesting].
  by rewrite (proj2 (N.eqb_neq c 40) H1), (proj2 (N.eqb_neq c 41) H2).
Qed.

Lemma nesting_shift (k d d' : nat) (s : str) :
  nesting d s = Some d' -> nesting (d + k) s = Some (d' + k)%nat.
Proof.
  revert d. induction s as [|c s IH]; intros d; cbn [nesting].
  - by intros [= ->].
  - destruct (c =? 40)%N; [apply (IH (S d))|].
    destruct (c =? 41)%N; [|apply IH].
    destruct d as [|d]; [done|]. apply IH.
Qed.

Lemma nesting_no_close (d : nat) (s : str) :
  41%N ∉ s -> exists k, nesting d s = Some (d + k)%nat.
Proof.
  revert d. induction s as [|c s IH]; intros d Hs.
  - exists 0%nat. cbn. f_equal. lia.
  - apply not_elem_of_cons in Hs as [Hc Hs]. cbn [nesting].
    destruct (c =? 40)%N.
    + destruct (IH (S d) Hs) as [k Hk]. exists (S k). rewrite Hk.
      f_equal. lia.
    + rewrite (proj2 (N.eqb_neq c 41)) by done. by apply IH.
Qed.

Lemma spaces_plain (ws : str) :
  spaces ws -> Forall (fun c => c <> 40%N /\ c <> 41%N) ws.
Proof.
  intros H. eapply Forall_impl; [exact H|]. cbv beta.
  intros c Hc. split; intros ->; discriminate Hc.
Qed.

Lemma operand_nesting (r r' : str) (d : nat) :
  operand r = Some r' -> nesting d r = nesting d r'.
Proof.
  intros (ws & _ & Hws & ->)%operand_spec.
  rewrite nesting_app, (nesting_plain d ws) by by apply spaces_plain.
  reflexivity.
Qed.

Lemma skip_copy_nesting (r : str) (d : nat) :
  nesting d (skip_copy r) = nesting d r.
Proof.
  unfold skip_copy. destruct (operand r) as [r1|] eqn:E1; [|done].
  destruct (operand r1) as [r2|] eqn:E2; [|done].
  by rewrite (operand_nesting r r1 d E1), (operand_nesting r1 r2 d E2).
Qed.

Lemma skip_fill_nesting (r : str) (d : nat) :
  nesting d (skip_fill r) = nesting d r.
Proof.
  unfold skip_fill. destruct (operand r) as [r1|] eqn:E1; [|done].
  by rewrite (operand_nesting r r1 d E1).
Qed.

Lemma sub_copy_nesting (s : str) (d : nat) :
  nesting d (sub_copy s) = nesting d s.
Proof.
  revert d.
  induction s as [|c s Hc IH|rest IH]
    using (re_sub_ind COPY_RE MEMORY_COPY skip_copy
             copy_match skip_copy_suffix MEMORY_COPY_nonempty); intros d.
  - done.
  - rewrite (re_sub_miss COPY_RE MEMORY_COPY CALL_MEMCPY skip_copy
               copy_match skip_copy_suffix MEMORY_COPY_nonempty) by done.
    cbn [nesting]. destruct (c =? 40)%N; [apply IH|].
    destruct (c =? 41)%N; [|apply IH]. destruct d; [done|apply IH].
  - rewrite (re_sub_hit COPY_RE MEMORY_COPY CALL_MEMCPY skip_copy
               copy_match skip_copy_suffix MEMORY_COPY_nonempty).
    change (nesting d (sub_copy (skip_copy rest)) = nesting d rest).
    by rewrite IH, skip_copy_nesting.
Qed.

Lemma sub_fill_nesting (s : str) (d : nat) :
  nesting d (sub_fill s) = nesting d s.
Proof.
  revert d.
  induction s as [|c s Hc IH|rest IH]
    using (re_sub_ind FILL_RE MEMORY_FILL skip_fill
             fill_match skip_fill_suffix MEMORY_FILL_nonempty); intros d.
  - done.
  - rewrite (re_sub_miss FILL_RE MEMORY_FILL CALL_MEMSET skip_fill
               fill_match skip_fill_suffix MEMORY_FILL_nonempty) by done.
    cbn [nesting]. destruct (c =? 40)%N; [apply IH|].
    destruct (c =? 41)%N; [|apply IH]. destruct d; [done|apply IH].
  - rewrite (re_sub_hit FILL_RE MEMORY_FILL CALL_MEMSET skip_fill
               fill_match skip_fill_suffix MEMORY_FILL_nonempty).
    change (nesting d (sub_fill (skip_fill rest)) = nesting d rest).
    by rewrite IH, skip_fill_nesting.
Qed.

Lemma rewrite_calls_nesting (has_copy has_fill : bool) (s : str) (d : nat) :
  nesting d (rewrite_calls has_copy has_fill s) = nesting d s.
Proof.
  unfold rewrite_calls.
  destruct has_copy, has_fill;
    by rewrite ?sub_fill_nesting, ?sub_copy_nesting.
Qed.

Lemma injected_code_nesting (has_copy has_fill : bool) (d : nat) :
  nesting d (injected_code has_copy has_fill) = Some d.
Proof.
  apply (nesting_shift d 0 0).
  destruct has_copy, has_fill; by vm_compute.
Qed.

(** The text written when something was found and the input has a
    [")"]. *)
Lemma pass_output_shape :
     (forall (wat_path output_path : str) (w : world) (content : str)
             (has_copy has_fill : bool),
         files w !! wat_path = Some content ->
         contains RPAREN content = true ->
         detect content = (has_copy, has_fill) ->
         has_copy || has_fill = true ->
         exists pre post output : str,
           content = pre ++ RPAREN ++ post
           /\ contains RPAREN post = false
           /\ output
              = rewrite_calls has_copy has_fill pre
                ++ injected_code has_copy has_fill
                ++ RPAREN ++ rewrite_calls has_copy has_fill post
           /\ polyfill_wat wat_path output_path w
              = (inl tt,
                 World (<[output_path := output]> (files w))
                       (trace w
                        ++ [EvRead wat_path;
                            EvPrint (py "Found bulk memory ops: Copy="
                                     ++ str_of_bool has_copy
                                     ++ py ", Fill="
                                     ++ str_of_bool has_fill);
                            EvWrite output_path output]))).
Proof.
  intros wat_path output_path w content has_copy has_fill
         Hfile Hparen Hdet Hany.
  apply contains_RPAREN, split_last in Hparen as (pre & post & -> & Hpost).
  apply not_contains_RPAREN in Hpost.
  change (pre ++ 41%N :: post) with (pre ++ RPAREN ++ post) in *.
  exists pre, post. eexists. split; [done|]. split; [done|].
  split; [reflexivity|].
  rewrite (polyfill_wat_found _ _ _ _ _ _ Hfile Hdet Hany).
  rewrite (inject_last_paren has_copy has_fill pre post Hpost).
  by rewrite rewrite_calls_around.
Qed.

(** X6.  The pass does not change how the parentheses of the text nest: from
    any depth, the text written reaches the depth the input reaches, or
    fails to nest where the input fails.  In particular a well-nested
    input gives a well-nested output. *)
Theorem pass_keeps_nesting (wat_path output_path : str) (w w' : world) :
  polyfill_wat wat_path output_path w = (inl tt, w') ->
  exists content output : str,
    files w !! wat_path = Some content
    /\ files w' !! output_path = Some output
    /\ forall d : nat, nesting d output = nesting d content.
Proof.
  intros Hrun.
  destruct (files w !! wat_path) as [content|] eqn:Hfile.
  2: { unfold polyfill_wat, mbind, M_bind, bind, read_file in Hrun.
       by rewrite Hfile in Hrun. }
  exists content.
  destruct (detect content) as [hc hf] eqn:Hdet.
  destruct (hc || hf) eqn:Hany.
  - rewrite (polyfill_wat_found _ _ _ _ _ _ Hfile Hdet Hany) in Hrun.
    destruct (inject hc hf content) as [new_content|e] eqn:Hinj; [|done].
    injection Hrun as <-. eexists. split; [done|].
    split; [apply lookup_insert_eq|]. intros d.
    rewrite rewrite_calls_nesting.
    destruct (contains RPAREN content) eqn:Hp.
    2: { by rewrite inject_no_paren in Hinj. }
    apply contains_RPAREN, split_last in Hp as (pre & post & -> & Hpost).
    apply not_contains_RPAREN in Hpost.
    change (pre ++ 41%N :: post) with (pre ++ RPAREN ++ post) in *.
    rewrite inject_last_paren in Hinj by done.
    assert (new_content = pre ++ injected_code hc hf ++ RPAREN ++ post)
      as -> by congruence.
    rewrite (nesting_app d pre), (nesting_app d pre (RPAREN ++ post)).
    destruct (nesting d pre) as [d1|]; [|done]. cbn [mbind option_bind].
    by rewrite nesting_app, injected_code_nesting.
  - apply orb_false_iff in Hany as [-> ->].
    rewrite (polyfill_wat_noop _ _ _ _ Hfile Hdet) in Hrun.
    injection Hrun as <-. exists content. split; [done|].
    split; [apply lookup_insert_eq|done].
Qed.

Lemma pass_keeps_nesting_witness :
  exists content output : str,
    files (World {[ py "in.wat" := py "(module (memory.copy))" ]} [])
      !! py "in.wat" = Some content
    /\ files (snd (polyfill_wat (py "in.wat") (py "out.wat")
                     (World {[ py "in.wat" := py "(module (memory.copy))" ]}
                            [])))
         !! py "out.wat" = Some output
    /\ forall d : nat, nesting d output = nesting d content.
Proof.
  apply (pass_keeps_nesting (py "in.wat") (py "out.wat")
           (World {[ py "in.wat" := py "(module (memory.copy))" ]} [])).
  rewrite (polyfill_wat_found (py "in.wat") (py "out.wat") _
             (py "(module (memory.copy))") true false
             (lookup_singleton_eq _ _) eq_refl eq_refl).
  reflexivity.
Defined.

(** X7.  In a well-nested input that has a [")"] and in which an
    instruction is detected, the functions are injected at depth one: the
    text written before them leaves exactly one parenthesis open, the one
    that the last [")"] closes.  (Without a [")"] the pass stops with the
    structural error and injects nothing.) *)
Theorem functions_injected_at_depth_one (wat_path output_path : str)
      (w : world) (content : str) (has_copy has_fill : bool) :
  files w !! wat_path = Some content ->
  nesting 0 content = Some 0%nat ->
  contains RPAREN content = true ->
  detect content = (has_copy, has_fill) ->
  has_copy || has_fill = true ->
  exists before after : str,
    files (snd (polyfill_wat wat_path output_path w)) !! output_path
    = Some (before ++ injected_code has_copy has_fill ++ after)
    /\ nesting 0 before = Some 1%nat
    /\ nesting 1 after = Some 0%nat.
Proof.
  intros Hfile Hnest Hparen Hdet Hany.
  destruct (pass_output_shape wat_path output_path w content
              has_copy has_fill Hfile Hparen Hdet Hany)
    as (pre & post & output & -> & Hpost & -> & ->).
  exists (rewrite_calls has_copy has_fill pre),
         (RPAREN ++ rewrite_calls has_copy has_fill post).
  split; [apply lookup_insert_eq|].
  rewrite nesting_app in Hnest.
  destruct (nesting 0 pre) as [d1|] eqn:Hpre; [|done].
  cbn [mbind option_bind] in Hnest. unfold RPAREN in Hnest.
  cbn [app nesting N.eqb Pos.eqb] in Hnest.
  destruct d1 as [|d2]; [done|].
  apply not_contains_RPAREN in Hpost.
  destruct (nesting_no_close d2 post Hpost) as [k Hk].
  rewrite Hk in Hnest. injection Hnest as Hz.
  assert (d2 = 0%nat) as -> by lia. assert (k = 0%nat) as -> by lia.
  split.
  - by rewrite rewrite_calls_nesting.
  - unfold RPAREN. cbn [app nesting N.eqb Pos.eqb].
    by rewrite rewrite_calls_nesting.
Qed.

Lemma functions_injected_at_depth_one_witness :
  exists before after : str,
    files (snd (polyfill_wat (py "in.wat") (py "out.wat")
                  (World {[ py "in.wat" := py "(module (memory.copy))" ]}
                         [])))
      !! py "out.wat"
    = Some (before ++ injected_code true false ++ after)
    /\ nesting 0 before = Some 1%nat
    /\ nesting 1 after = Some 0%nat.
Proof.
  exact (functions_injected_at_depth_one (py "in.wat") (py "out.wat")
           (World {[ py "in.wat" := py "(module (memory.copy))" ]} [])
           (py "(module (memory.copy))") true false
           (lookup_singleton_eq _ _) eq_refl eq_refl eq_refl eq_refl).
Defined.

End Nesting.

(* ===================================================================== *)
(** * The injected functions outside the memory *)
(* ===================================================================== *)

Section WasmBounds.
Import Strings.Byte Wasm.

Lemma wrap32_range (z : Z) : 0 <= wrap32 z < 2 ^ 32.
Proof. unfold wrap32. apply Z.mod_pos_bound. lia. Qed.

Lemma load8_u_cases (m : machine) (a : Z) :
  0 <= a ->
  (Z.of_nat (length (memory m)) <= a /\ load8_u m a = Trap)
  \/ (a < Z.of_nat (length (memory m)) /\ exists v, load8_u m a = Done v).
Proof.
  intros Ha. unfold load8_u.
  destruct (memory m !! Z.to_nat a) as [b|] eqn:E.
  - right. apply lookup_lt_Some in E. split; [lia|eauto].
  - left. apply lookup_ge_None in E. split; [lia|done].
Qed.

Lemma store8_cases (m : machine) (a v : Z) :
  (Z.of_nat (length (memory m)) <= a /\ store8 m a v = Trap)
  \/ (a < Z.of_nat (length (memory m))
      /\ exists m', store8 m a v = Done m'
                    /\ length (memory m') = length (memory m)).
Proof.
  unfold store8.
  destruct (Z.ltb_spec a (Z.of_nat (length (memory m)))).
  - right. split; [done|]. eexists. split; [done|].
    cbn [memory]. apply length_insert.
  - left. done.
Qed.

(** One round of a copy loop at index [j]: a trap when one of the two
    addresses is outside, a machine of the same size otherwise. *)
Lemma copy_round (m : machine) (dest src j : Z) :
  (outside m dest src j
   /\ (v ← load8_u m (i32_add src j); store8 m (i32_add dest j) v) = Trap)
  \/ (~ outside m dest src j
      /\ exists m', (v ← load8_u m (i32_add src j);
                     store8 m (i32_add dest j) v) = Done m'
                    /\ length (memory m') = length (memory m)).
Proof.
  unfold outside.
  destruct (load8_u_cases m (i32_add src j)) as [[H1 ->]|[H1 [v ->]]];
    [apply wrap32_range| |].
  - left. split; [by left|done].
  - cbn [mbind result_bind].
    destruct (store8_cases m (i32_add dest j) v)
      as [[H2 ->]|[H2 (m' & -> & Hlen)]].
    + left. split; [by right|done].
    + right. split; [lia|]. eauto.
Qed.

Lemma loop_back_runs (n : nat) :
  forall (fuel : nat) (dest src : Z) (m : machine),
    (n < fuel)%nat -> Z.of_nat n < 2 ^ 32 ->
    ((exists j : nat, (j < n)%nat /\ outside m dest src (Z.of_nat j))
     /\ loop_back fuel dest src (Z.of_nat n) m = Trap)
    \/ ((forall j : nat, (j < n)%nat -> ~ outside m dest src (Z.of_nat j))
        /\ exists m', loop_back fuel dest src (Z.of_nat n) m = Done m'
                      /\ length (memory m') = length (memory m)).
Proof.
  induction n as [|n IH]; intros fuel dest src m Hfuel Hn.
  - destruct fuel as [|fuel]; [lia|]. right. split; [lia|].
    exists m. done.
  - destruct fuel as [|fuel]; [lia|]. cbn [loop_back]. unfold i32_eqz.
    destruct (Z.eqb_spec (Z.of_nat (S n)) 0) as [|_]; [lia|].
    assert (Hi : i32_sub (Z.of_nat (S n)) 1 = Z.of_nat n).
    { unfold i32_sub, wrap32. rewrite Z.mod_small; lia. }
    rewrite Hi.
    destruct (copy_round m dest src (Z.of_nat n))
      as [[Hout Hrun]|[Hin (m1 & Hrun & Hlen)]].
    + left. split; [exists n; split; [lia|done]|].
      destruct (load8_u m (i32_add src (Z.of_nat n))) as [v| |];
        cbn [mbind result_bind] in *; [|done|done].
      by rewrite Hrun.
    + assert (Hstep :
        (v ← load8_u m (i32_add src (Z.of_nat n));
         m0 ← store8 m (i32_add dest (Z.of_nat n)) v;
         loop_back fuel dest src (Z.of_nat n) m0)
        = loop_back fuel dest src (Z.of_nat n) m1).
      { destruct (load8_u m (i32_add src (Z.of_nat n))) as [v| |];
          cbn [mbind result_bind] in *; [|done|done].
        by rewrite Hrun. }
      rewrite Hstep.
      assert (Hsame : forall j, outside m1 dest src j <-> outside m dest src j).
      { intros j. unfold outside. by rewrite Hlen. }
      destruct (IH fuel dest src m1) as [[(j & Hj & Hout) ->]|[Hall Hdone]];
        [lia|lia| |].
      * left. split; [|done]. exists j. split; [lia|]. by apply Hsame.
      * right. split.
        -- intros j Hj. destruct (decide (j = n)) as [->|]; [done|].
           rewrite <- Hsame. apply Hall. lia.
        -- destruct Hdone as (m' & -> & Hlen'). exists m'.
           split; [done|congruence].
Qed.

Lemma loop_fwd_runs (r : nat) :
  forall (fuel : nat) (dest src : Z) (n i : nat) (m : machine),
    (r < fuel)%nat -> (i + r = n)%nat -> Z.of_nat n < 2 ^ 32 ->
    ((exists j : nat, (i <= j < n)%nat /\ outside m dest src (Z.of_nat j))
     /\ loop_fwd fuel dest src (Z.of_nat n) (Z.of_nat i) m = Trap)
    \/ ((forall j : nat, (i <= j < n)%nat ->
                         ~ outside m dest src (Z.of_nat j))
        /\ exists m',
             loop_fwd fuel dest src (Z.of_nat n) (Z.of_nat i) m = Done m'
             /\ length (memory m') = length (memory m)).
Proof.
  induction r as [|r IH]; intros fuel dest src n i m Hfuel Hir Hn.
  - destruct fuel as [|fuel]; [lia|]. cbn [loop_fwd]. unfold i32_ge_u.
    destruct (Z.leb_spec (Z.of_nat n) (Z.of_nat i)); [|lia].
    right. split; [lia|]. exists m. done.
  - destruct fuel as [|fuel]; [lia|]. cbn [loop_fwd]. unfold i32_ge_u.
    destruct (Z.leb_spec (Z.of_nat n) (Z.of_nat i)); [lia|].
    assert (Hi : i32_add (Z.of_nat i) 1 = Z.of_nat (S i)).
    { unfold i32_add, wrap32. rewrite Z.mod_small; lia. }
    rewrite Hi.
    destruct (copy_round m dest src (Z.of_nat i))
      as [[Hout Hrun]|[Hin (m1 & Hrun & Hlen)]].
    + left. split; [exists i; split; [lia|done]|].
      destruct (load8_u m (i32_add src (Z.of_nat i))) as [v| |];
        cbn [mbind result_bind] in *; [|done|done].
      by rewrite Hrun.
    + assert (Hstep :
        (v ← load8_u m (i32_add src (Z.of_nat i));
         m0 ← store8 m (i32_add dest (Z.of_nat i)) v;
         loop_fwd fuel dest src (Z.of_nat n) (Z.of_nat (S i)) m0)
        = loop_fwd fuel dest src (Z.of_nat n) (Z.of_nat (S i)) m1).
      { destruct (load8_u m (i32_add src (Z.of_nat i))) as [v| |];
          cbn [mbind result_bind] in *; [|done|done].
        by rewrite Hrun. }
      rewrite Hstep.
      assert (Hsame : forall j, outside m1 dest src j <-> outside m dest src j).
      { intros j. unfold outside. by rewrite Hlen. }
      destruct (IH fuel dest src n (S i) m1)
        as [[(j & Hj & Hout) ->]|[Hall Hdone]]; [lia|lia|lia| |].
      * left. split; [|done]. exists j. split; [lia|]. by apply Hsame.
      * right. split.
        -- intros j Hj. destruct (decide (j = i)) as [->|]; [done|].
           rewrite <- Hsame. apply Hall. lia.
        -- destruct Hdone as (m' & -> & Hlen'). exists m'.
           split; [done|congruence].
Qed.


Lemma loop_set_runs (r : nat) :
  forall (fuel : nat) (dest val : Z) (n i : nat) (m : machine),
    (r < fuel)%nat -> (i + r = n)%nat -> Z.of_nat n < 2 ^ 32 ->
    ((exists j : nat,
         (i <= j < n)%nat
         /\ Z.of_nat (length (memory m)) <= i32_add dest (Z.of_nat j))
     /\ loop_set fuel dest val (Z.of_nat n) (Z.of_nat i) m = Trap)
    \/ ((forall j : nat,
            (i <= j < n)%nat ->
            i32_add dest (Z.of_nat j) < Z.of_nat (length (memory m)))
        /\ exists m',
             loop_set fuel dest val (Z.of_nat n) (Z.of_nat i) m = Done m'
             /\ length (memory m') = length (memory m)).
Proof.
  induction r as [|r IH]; intros fuel dest val n i m Hfuel Hir Hn.
  - destruct fuel as [|fuel]; [lia|]. cbn [loop_set]. unfold i32_ge_u.
    destruct (Z.leb_spec (Z.of_nat n) (Z.of_nat i)); [|lia].
    right. split; [lia|]. exists m. done.
  - destruct fuel as [|fuel]; [lia|]. cbn [loop_set]. unfold i32_ge_u.
    destruct (Z.leb_spec (Z.of_nat n) (Z.of_nat i)); [lia|].
    assert (Hi : i32_add (Z.of_nat i) 1 = Z.of_nat (S i)).
    { unfold i32_add, wrap32. rewrite Z.mod_small; lia. }
    rewrite Hi.
    destruct (store8_cases m (i32_add dest (Z.of_nat i)) val)
      as [[Hout ->]|[Hin (m1 & -> & Hlen)]]; cbn [mbind result_bind].
    + left. split; [|done]. exists i. split; [lia|done].
    + destruct (IH fuel dest val n (S i) m1)
        as [[(j & Hj & Hout) ->]|[Hall Hdone]]; [lia|lia|lia| |].
      * left. split; [|done]. exists j. split; [lia|]. by rewrite <- Hlen.
      * right. split.
        -- intros j Hj. destruct (decide (j = i)) as [->|]; [done|].
           rewrite <- Hlen. apply Hall. lia.
        -- destruct Hdone as (m' & -> & Hlen'). exists m'.
           split; [done|congruence].
Qed.

(** X8.  [$memcpy] ends within [len] rounds on every input, whatever the
    offsets.  It traps exactly when one of the addresses it visits,
    computed with wrap-around, is outside the memory; otherwise it
    returns and the memory has the size it had. *)
Theorem memcpy_traps_or_returns (m : machine) (dest src len : Z)
      (fuel : nat) :
  0 <= len < 2 ^ 32 ->
  (Z.to_nat len < fuel)%nat ->
  ((exists j : nat, (j < Z.to_nat len)%nat
                    /\ outside m dest src (Z.of_nat j))
   /\ memcpy fuel dest src len m = Trap)
  \/ ((forall j : nat, (j < Z.to_nat len)%nat ->
                       ~ outside m dest src (Z.of_nat j))
      /\ exists m', memcpy fuel dest src len m = Done m'
                    /\ length (memory m') = length (memory m)).
Proof.
  intros Hlen Hfuel. rewrite <- (Z2Nat.id len) by lia. rewrite Nat2Z.id.
  unfold memcpy. destruct (i32_gt_u dest src).
  - apply loop_back_runs; lia.
  - destruct (loop_fwd_runs (Z.to_nat len) fuel dest src (Z.to_nat len) 0 m)
      as [[(j & Hj & Hout) Hrun]|[Hall Hdone]]; [lia|lia|lia| |].
    + left. split; [|done]. exists j. split; [lia|done].
    + right. split; [|done]. intros j Hj. apply Hall. lia.
Qed.

Lemma memcpy_traps_or_returns_witness :
  ((exists j : nat, (j < Z.to_nat 4)%nat
                    /\ outside (Machine [x00; x01; x02; x03; x04; x05] [])
                         3 0 (Z.of_nat j))
   /\ memcpy 5 3 0 4 (Machine [x00; x01; x02; x03; x04; x05] []) = Trap)
  \/ ((forall j : nat, (j < Z.to_nat 4)%nat ->
                       ~ outside (Machine [x00; x01; x02; x03; x04; x05] [])
                           3 0 (Z.of_nat j))
      /\ exists m',
           memcpy 5 3 0 4 (Machine [x00; x01; x02; x03; x04; x05] [])
           = Done m'
           /\ length (memory m')
              = length (memory (Machine [x00; x01; x02; x03; x04; x05] []))).
Proof.
  apply (memcpy_traps_or_returns
           (Machine [x00; x01; x02; x03; x04; x05] []) 3 0 4 5);
    cbn; lia.
Defined.

(** A copy that does not trap has visited addresses of the memory only. *)
Lemma memcpy_trap_or_inside (m : machine) (dest src len : Z) (fuel : nat) :
  0 <= len < 2 ^ 32 ->
  (Z.to_nat len < fuel)%nat ->
  memcpy fuel dest src len m = Trap
  \/ forall j : nat, (j < Z.to_nat len)%nat ->
                     ~ outside m dest src (Z.of_nat j).
Proof.
  intros Hlen Hfuel. unfold memcpy. destruct (i32_gt_u dest src).
  - destruct (loop_back_runs (Z.to_nat len) fuel dest src m)
      as [[_ Hrun]|[Hall _]]; [lia|lia| |].
    + left. by rewrite Z2Nat.id in Hrun by lia.
    + by right.
  - destruct (loop_fwd_runs (Z.to_nat len) fuel dest src (Z.to_nat len) 0 m)
      as [[_ Hrun]|[Hall _]]; [lia|lia|lia| |].
    + left. by rewrite Z2Nat.id in Hrun by lia.
    + right. intros j Hj. apply Hall. lia.
Qed.

(** X9.  A copy of at least one byte whose source or destination region
    does not lie within the memory traps, provided the memory is smaller
    than the whole 32-bit address space. *)
Theorem memcpy_out_of_bounds_traps (m : machine) (dest src len : Z)
      (fuel : nat) :
  0 <= dest < 2 ^ 32 -> 0 <= src < 2 ^ 32 -> 0 < len < 2 ^ 32 ->
  Z.of_nat (length (memory m)) < 2 ^ 32 ->
  Z.of_nat (length (memory m)) < dest + len
  \/ Z.of_nat (length (memory m)) < src + len ->
  (Z.to_nat len < fuel)%nat ->
  memcpy fuel dest src len m = Trap.
Proof.
  intros Hd Hs Hl H32 Hout Hfuel.
  destruct (memcpy_trap_or_inside m dest src len fuel)
    as [Hrun|Hall]; [lia|done|done|].
  exfalso. set (L := Z.of_nat (length (memory m))) in *.
  assert (Hfind : forall a, 0 <= a < 2 ^ 32 -> L < a + len ->
            exists j : nat, (j < Z.to_nat len)%nat
                            /\ L <= i32_add a (Z.of_nat j)).
  { intros a Ha HL. destruct (Z.le_gt_cases L a).
    - exists 0%nat. split; [lia|]. unfold i32_add, wrap32.
      rewrite Z.mod_small; lia.
    - exists (Z.to_nat (L - a)). split; [lia|]. unfold i32_add, wrap32.
      rewrite Z.mod_small; lia. }
  destruct Hout as [Hout|Hout].
  - destruct (Hfind dest Hd Hout) as (j & Hj & Hbad).
    apply (Hall j Hj). by right.
  - destruct (Hfind src Hs Hout) as (j & Hj & Hbad).
    apply (Hall j Hj). by left.
Qed.

Lemma memcpy_out_of_bounds_traps_witness :
  memcpy 5 3 0 4 (Machine [x00; x01; x02; x03; x04; x05] []) = Trap.
Proof.
  apply (memcpy_out_of_bounds_traps
           (Machine [x00; x01; x02; x03; x04; x05] []) 3 0 4 5);
    cbn; lia.
Defined.

(** X10.  [$memset] ends within [len] rounds for every 32-bit length,
    whatever the offset: it traps or returns, and when it returns the
    memory has the size it had.  In a memory smaller than the whole
    32-bit address space, a fill of at least one byte whose region does
    not lie within the memory traps. *)
Theorem memset_out_of_bounds_traps (m : machine) (dest val len : Z)
      (fuel : nat) :
  0 <= len < 2 ^ 32 ->
  (Z.to_nat len < fuel)%nat ->
  (0 <= dest < 2 ^ 32 ->
   Z.of_nat (length (memory m)) < 2 ^ 32 ->
   Z.of_nat (length (memory m)) < dest + len ->
   0 < len ->
   memset fuel dest val len m = Trap)
  /\ (forall m', memset fuel dest val len m = Done m' ->
                 length (memory m') = length (memory m))
  /\ memset fuel dest val len m <> OutOfFuel.
Proof.
  intros Hl Hfuel. unfold memset.
  pose proof (loop_set_runs (Z.to_nat len) fuel dest val (Z.to_nat len) 0 m)
    as H.
  rewrite Z2Nat.id in H by lia. change (Z.of_nat 0) with 0 in H.
  destruct H as [[(j & Hj & Hout) ->]|[Hall (m' & -> & Hlen)]];
    [lia|lia|lia| |].
  - split; [done|]. split; [done|done].
  - split; [|split; [by intros ? [= <-]|done]].
    intros Hd H32 Hout Hpos. exfalso.
    set (L := Z.of_nat (length (memory m))) in *.
    destruct (Z.le_gt_cases L dest).
    + specialize (Hall 0%nat ltac:(lia)). unfold i32_add, wrap32 in Hall.
      rewrite Z.mod_small in Hall; lia.
    + specialize (Hall (Z.to_nat (L - dest)) ltac:(lia)).
      unfold i32_add, wrap32 in Hall. rewrite Z.mod_small in Hall; lia.
Qed.

Lemma memset_out_of_bounds_traps_witness :
  memset 4 2 255 3 (Machine [x00; x00; x00; x00] []) = Trap.
Proof.
  apply (proj1 (memset_out_of_bounds_traps
                  (Machine [x00; x00; x00; x00] []) 2 255 3 4
                  ltac:(lia) ltac:(cbn; lia)));
    cbn; lia.
Defined.

End WasmBounds.

(* ===================================================================== *)
(** * Further properties of the account-hash tool *)
(* ===================================================================== *)

Section AccountHashProperties.
Import Strings.Byte Py Sys AccountHash.

Lemma F_length (h m : list N) (t : N) (final : bool) :
  length (Blake2b.F h m t final) = 8%nat.
Proof. unfold Blake2b.F. by rewrite length_map, length_seq. Qed.

Lemma compress_length (fuel : nat) (h : list N) (t : N) (data : list byte) :
  length (Blake2b.compress fuel h t data) = 8%nat.
Proof.
  revert h t data. induction fuel as [|fuel IH]; intros h t data;
    cbn [Blake2b.compress]; [apply F_length|].
  destruct (length data <=? 128)%nat; [apply F_length|apply IH].
Qed.

Lemma le_bytes_length (n : nat) (x : N) :
  length (Blake2b.le_bytes n x) = n.
Proof.
  revert x. induction n as [|n IH]; intros x; [done|].
  cbn [Blake2b.le_bytes]. destruct (of_N (x mod 256)) as [b|] eqn:E.
  - cbn. by rewrite IH.
  - apply of_N_None_iff in E.
    pose proof (N.mod_lt x 256 ltac:(done)). lia.
Qed.

Lemma words_bytes_length (h : list N) :
  length (concat (map (Blake2b.le_bytes 8) h)) = (8 * length h)%nat.
Proof.
  induction h as [|x h IH]; [done|].
  cbn [map concat length]. rewrite length_app, le_bytes_length, IH. lia.
Qed.

(** The digest has the size asked for, up to the 64 bytes of the state. *)
Lemma blake2b_length (digest_size : nat) (data : list byte) :
  length (Blake2b.blake2b digest_size data) = (digest_size `min` 64)%nat.
Proof.
  unfold Blake2b.blake2b.
  by rewrite length_take, words_bytes_length, compress_length.
Qed.

Lemma hex_digit_lower (n : N) :
  (n < 16)%N -> is_lower_hex (hex_digit n) = true.
Proof.
  intros Hn. unfold is_lower_hex, hex_digit.
  destruct (N.ltb_spec n 10).
  - apply orb_true_iff. left. apply andb_true_iff.
    split; apply N.leb_le; lia.
  - apply orb_true_iff. right. apply andb_true_iff.
    split; apply N.leb_le; lia.
Qed.

Lemma hex_of_bytes_shape (bs : list byte) :
  length (hex_of_bytes bs) = (2 * length bs)%nat
  /\ Forall (fun c => is_lower_hex c = true) (hex_of_bytes bs).
Proof.
  unfold hex_of_bytes. induction bs as [|b bs [IH1 IH2]]; [by split|].
  cbn [map concat app length]. split; [rewrite IH1; lia|].
  pose proof (to_N_bounded b).
  constructor; [|constructor; [|done]]; apply hex_digit_lower.
  - apply N.Div0.div_lt_upper_bound. lia.
  - by apply N.mod_lt.
Qed.

Lemma hex_value_digit (n : N) :
  (n < 16)%N -> hex_value (hex_digit n) = Some n.
Proof.
  intros Hn. unfold hex_value, hex_digit. destruct (N.ltb_spec n 10).
  - rewrite (proj2 (N.leb_le 48 (48 + n))), (proj2 (N.leb_le (48 + n) 57))
      by lia.
    cbn [andb]. f_equal. lia.
  - destruct (N.leb_spec 48 (87 + n)), (N.leb_spec (87 + n) 57);
      cbn [andb]; try lia.
    rewrite (proj2 (N.leb_le 97 (87 + n))), (proj2 (N.leb_le (87 + n) 102))
      by lia.
    cbn [andb]. f_equal. lia.
Qed.

Lemma lower_hex_is_hex (c : N) :
  is_lower_hex c = true -> is_Some (hex_value c).
Proof.
  unfold is_lower_hex, hex_value.
  intros [[H1 H2]%andb_true_iff|[H1 H2]%andb_true_iff]%orb_true_iff.
  - rewrite H1, H2. by eexists.
  - destruct ((48 <=? c) && (c <=? 57))%N; [by eexists|].
    rewrite H1, H2. by eexists.
Qed.

(** Decoding the hexadecimal text of a byte string gives the byte string
    back. *)
Lemma fromhex_hex_of_bytes (bs : list byte) :
  bytes_fromhex (hex_of_bytes bs) = Some bs.
Proof.
  unfold bytes_fromhex, hex_of_bytes. induction bs as [|b bs IH]; [done|].
  cbn [map concat app fromhex_from].
  pose proof (to_N_bounded b) as Hb.
  assert (H1 : (to_N b / 16 < 16)%N)
    by (apply N.Div0.div_lt_upper_bound; lia).
  assert (H2 : (to_N b mod 16 < 16)%N) by (by apply N.mod_lt).
  rewrite (hex_not_space (hex_digit (to_N b / 16)))
    by (rewrite hex_value_digit by done; by eexists).
  rewrite !hex_value_digit by done. rewrite IH. f_equal. f_equal.
  unfold byte_of_N.
  rewrite <- (N.div_mod (to_N b) 16) by done.
  rewrite N.mod_small by lia. by rewrite of_to_N.
Qed.

Lemma get_account_hash_usage (argv : list str) (w : world) :
  (length argv < 2)%nat ->
  get_account_hash argv w
  = (inr (SystemExit 1),
     World (files w)
       (trace w
        ++ [EvPrint
              (py "Usage: python3 get_account_hash.py <public_key_hex>")])).
Proof. intros H. by destruct argv as [|prog [|hex_key more]]; [..|cbn in H; lia]. Qed.

Lemma argv_cases (argv : list str) :
  (length argv < 2)%nat \/ exists prog hex_key more, argv = prog :: hex_key :: more.
Proof.
  destruct argv as [|prog [|hex_key more]]; [left; cbn; lia..|].
  right. by exists prog, hex_key, more.
Qed.

(** X11.  Whenever the tool ends normally, it has printed one line and
    changed no file, and the line is [account-hash-] followed by exactly
    64 characters, each of them a lowercase hexadecimal digit. *)
Theorem account_hash_line_format (argv : list str) (w w' : world) :
  get_account_hash argv w = (inl tt, w') ->
  exists digest : str,
    w' = World (files w)
               (trace w ++ [EvPrint (py "account-hash-" ++ digest)])
    /\ length digest = 64%nat
    /\ Forall (fun c => is_lower_hex c = true) digest.
Proof.
  intros Hrun.
  destruct (argv_cases argv) as [Hshort|(prog & hex_key & more & ->)].
  { by rewrite get_account_hash_usage in Hrun. }
  rewrite get_account_hash_run in Hrun. cbv zeta in Hrun.
  assert (Hdone : forall algo_name key_bytes,
    exists digest : str,
      World (files w)
        (trace w
         ++ [EvPrint
               (py "account-hash-"
                ++ hex_of_bytes
                     (Blake2b.blake2b 32
                        (encode_utf8 algo_name ++ [x00] ++ key_bytes)))])
      = World (files w)
          (trace w ++ [EvPrint (py "account-hash-" ++ digest)])
      /\ length digest = 64%nat
      /\ Forall (fun c => is_lower_hex c = true) digest).
  { intros algo_name key_bytes. eexists. split; [reflexivity|].
    destruct (hex_of_bytes_shape
                (Blake2b.blake2b 32
                   (encode_utf8 algo_name ++ [x00] ++ key_bytes)))
      as [Hlen Hall].
    split; [|exact Hall]. by rewrite Hlen, blake2b_length. }
  destruct (bytes_fromhex (slice_from hex_key 2)) as [kb|]; [|done].
  destruct (bool_decide (slice_to hex_key 2 = py "01")).
  { destruct (length kb =? 32)%nat; [|done].
    apply (f_equal snd) in Hrun. cbn [snd] in Hrun. rewrite <- Hrun.
    apply Hdone. }
  destruct (bool_decide (slice_to hex_key 2 = py "02")); [|done].
  destruct (length kb =? 33)%nat; [|done].
  apply (f_equal snd) in Hrun. cbn [snd] in Hrun. rewrite <- Hrun.
  apply Hdone.
Qed.

Lemma account_hash_line_format_witness :
  exists digest : str,
    World ∅
      [EvPrint (py "account-hash-fe389c0f6ec69babd9837ee1d49a8900573552594d30b20c9c2b8310fe6b11e5")]
    = World (files (World ∅ []))
        (trace (World ∅ []) ++ [EvPrint (py "account-hash-" ++ digest)])
    /\ length digest = 64%nat
    /\ Forall (fun c => is_lower_hex c = true) digest.
Proof.
  apply (account_hash_line_format
           [py "get_account_hash.py";
            py "01aabbccddeeff00112233445566778899aabbccddeeff00112233445566778899"]).
  vm_compute. reflexivity.
Defined.


(** X13.  The tool hashes the key bytes themselves: for any 32 bytes, the
    tag [01] followed by their hexadecimal text gives the digest of
    ["ed25519"], a zero byte and these bytes, and for any 33 bytes the
    tag [02] followed by their hexadecimal text gives the digest of
    ["secp256k1"], a zero byte and these bytes. *)
Theorem account_hash_of_key_bytes
    (prog : str) (more : list str) (w : world) (key : list byte) :
  length key = 32%nat \/ length key = 33%nat ->
  get_account_hash
    (prog
     :: ((if (length key =? 32)%nat then py "01" else py "02")
         ++ hex_of_bytes key)
     :: more) w
  = (inl tt,
     World (files w)
       (trace w
        ++ [EvPrint
              (py "account-hash-"
               ++ hex_of_bytes
                    (Blake2b.blake2b 32
                       (encode_utf8
                          (if (length key =? 32)%nat then py "ed25519"
                           else py "secp256k1")
                        ++ [x00] ++ key)))])).
Proof.
  intros Hlen. rewrite get_account_hash_run. cbv zeta.
  destruct Hlen as [Hlen|Hlen]; rewrite Hlen; cbn [Nat.eqb].
  - destruct (tagged_key_slices (py "01") (hex_of_bytes key) eq_refl)
      as [-> ->].
    rewrite fromhex_hex_of_bytes, Hlen. reflexivity.
  - destruct (tagged_key_slices (py "02") (hex_of_bytes key) eq_refl)
      as [-> ->].
    rewrite fromhex_hex_of_bytes, Hlen. reflexivity.
Qed.

Lemma account_hash_of_key_bytes_witness :
  get_account_hash
    [py "get_account_hash.py";
     py "01" ++ hex_of_bytes (repeat xab 32)]
    (World ∅ [])
  = (inl tt,
     World ∅
       [EvPrint
          (py "account-hash-"
           ++ hex_of_bytes
                (Blake2b.blake2b 32
                   (encode_utf8 (py "ed25519") ++ [x00]
                    ++ repeat xab 32)))]).
Proof.
  exact (account_hash_of_key_bytes
           (py "get_account_hash.py") [] (World ∅ []) (repeat xab 32)
           (or_introl eq_refl)).
Defined.

Lemma fromhex_same_digits (high : option N) (k1 k2 : str) :
  Forall2 (fun c d => hex_value c = hex_value d
                      /\ is_ascii_space c = is_ascii_space d) k1 k2 ->
  fromhex_from high k1 = fromhex_from high k2.
Proof.
  intros H. revert high.
  induction H as [|c d k1 k2 [Hv Hs] _ IH]; intros high; [done|].
  cbn [fromhex_from]. rewrite Hv, Hs.
  destruct high as [top|].
  - destruct (hex_value d); [|done]. by rewrite IH.
  - destruct (is_ascii_space d); [apply IH|].
    destruct (hex_value d); [apply IH|done].
Qed.

(** X14.  The key text is read digit by digit, whatever the case of the
    letters: two key texts whose characters have the same hexadecimal
    values, such as [AB] and [ab], after the same two-character tag
    give the same run. *)
Theorem account_hash_ignores_case
    (prog tag k1 k2 : str) (more : list str) (w : world) :
  length tag = 2%nat ->
  Forall2 (fun c d => hex_value c = hex_value d
                      /\ is_ascii_space c = is_ascii_space d) k1 k2 ->
  get_account_hash (prog :: (tag ++ k1) :: more) w
  = get_account_hash (prog :: (tag ++ k2) :: more) w.
Proof.
  intros Htag Hk. rewrite !get_account_hash_run. cbv zeta.
  destruct (tagged_key_slices tag k1 Htag) as [-> ->].
  destruct (tagged_key_slices tag k2 Htag) as [-> ->].
  unfold bytes_fromhex. by rewrite (fromhex_same_digits None k1 k2 Hk).
Qed.

Lemma account_hash_ignores_case_witness :
  get_account_hash
    [py "get_account_hash.py";
     py "01"
     ++ py "AABBCCDDEEFF00112233445566778899AABBCCDDEEFF00112233445566778899"]
    (World ∅ [])
  = get_account_hash
      [py "get_account_hash.py";
       py "01"
       ++ py "aabbccddeeff00112233445566778899aabbccddeeff00112233445566778899"]
      (World ∅ []).
Proof.
  apply (account_hash_ignores_case
           (py "get_account_hash.py") (py "01")
           (py "AABBCCDDEEFF00112233445566778899AABBCCDDEEFF00112233445566778899")
           (py "aabbccddeeff00112233445566778899aabbccddeeff00112233445566778899")
           [] (World ∅ [])).
  - reflexivity.
  - repeat constructor.
Defined.

End AccountHashProperties.
